(** * Log rotation engine of [rotate_logs.py]: model and verified properties

    The development embeds [LogRotator] (scripts/python/automation/
    rotate_logs.py).  A directory tree is a finite map from paths to files,
    the mutable [self.stats] dictionary is a record of counters, and every
    method is a function from worlds to outcomes: [Done w] when the Python
    method returns, [Raised w] when an [OSError] escapes it. *)

From Stdlib Require Import ZArith QArith Ascii.
From Stdlib.Strings Require Import Byte.
From stdpp Require Import base tactics option list sorting gmap strings pretty.

Local Open Scope Z_scope.

(* ===================================================================== *)
(** ** Paths and file names *)
(* ===================================================================== *)

(** A [pathlib.Path] is kept as its [parent] directory and its [name]. *)
Abbreviation path := (string * string)%type.

Definition parent (p : path) : string := fst p.
Definition name (p : path) : string := snd p.

(** [Path(f"{log_file}.{i}")] *)
Definition rotated_path (log_file : path) (i : nat) : path :=
  (parent log_file, name log_file +:+ "." +:+ pretty i).

(** [Path(f"{p}.gz")] *)
Definition gz_path (p : path) : path := (parent p, name p +:+ ".gz").

(* ===================================================================== *)
(** ** The regular expression [\.(\d+)(\.gz)?$] and [int] *)
(* ===================================================================== *)

(** [\d] on ASCII input. *)
Definition is_digit (c : ascii) : bool :=
  match Ascii.is_nat c with Some _ => true | None => false end.

Definition digit_value (c : ascii) : N :=
  match Ascii.is_nat c with Some d => N.of_nat d | None => 0%N end.

(** The greedy [\d+]: the longest run of digits in front of [s], and what
    follows it. *)
Fixpoint span_digits (s : string) : string * string :=
  match s with
  | String c r =>
      if is_digit c
      then let '(ds, rest) := span_digits r in (String c ds, rest)
      else (EmptyString, s)
  | EmptyString => (EmptyString, EmptyString)
  end.

Definition newline : ascii := "010"%char.

(** What may follow the digits: [(\.gz)?$], where [$] also matches just in
    front of a final newline. *)
Definition at_gz_end (rest : string) : bool :=
  bool_decide (rest = EmptyString)
  || bool_decide (rest = String newline EmptyString)
  || bool_decide (rest = ".gz")
  || bool_decide (rest = ".gz" +:+ String newline EmptyString).

(** An attempt of the pattern at the front of [s]; the result is group 1. *)
Definition match_here (s : string) : option string :=
  match s with
  | String c r =>
      if bool_decide (c = "."%char) then
        let '(ds, rest) := span_digits r in
        if negb (bool_decide (ds = EmptyString)) && at_gz_end rest
        then Some ds else None
      else None
  | EmptyString => None
  end.

(** [re.search]: the leftmost position at which the pattern matches. *)
Fixpoint re_search (s : string) : option string :=
  match match_here s with
  | Some ds => Some ds
  | None => match s with
            | String _ r => re_search r
            | EmptyString => None
            end
  end.

(** [int(ds)] for a string of decimal digits. *)
Fixpoint int_digits (acc : N) (ds : string) : N :=
  match ds with
  | String c r => int_digits (acc * 10 + digit_value c)%N r
  | EmptyString => acc
  end.

(** [rotation_num] when the pattern matches [rotated.name]. *)
Definition rotation_num (nm : string) : option Z :=
  (fun ds => Z.of_N (int_digits 0 ds)) <$> re_search nm.

(* ===================================================================== *)
(** ** Shell patterns *)
(* ===================================================================== *)

Definition star : ascii := "*"%char.
Definition qmark : ascii := "?"%char.

(** The shell's [*]: some suffix of [s] is matched by the remaining
    pattern [k]. *)
Fixpoint any_suffix (k : string -> bool) (s : string) : bool :=
  k s || match s with
         | String _ s' => any_suffix k s'
         | EmptyString => false
         end.

(** [fnmatch] for patterns made of literal characters, [*] and [?]
    (bracket expressions are read as literal characters). *)
Fixpoint fnmatch (pat s : string) : bool :=
  match pat with
  | EmptyString => bool_decide (s = EmptyString)
  | String c pat' =>
      if bool_decide (c = star) then any_suffix (fnmatch pat') s
      else match s with
           | String c' s' =>
               (bool_decide (c = qmark) || bool_decide (c = c')) && fnmatch pat' s'
           | EmptyString => false
           end
  end.

(** ['*' in pattern or '?' in pattern] *)
Fixpoint has_wildcard (pat : string) : bool :=
  match pat with
  | String c r => bool_decide (c = star) || bool_decide (c = qmark) || has_wildcard r
  | EmptyString => false
  end.

(* ===================================================================== *)
(** ** Files, counters and worlds *)
(* ===================================================================== *)

(** A regular file: its bytes and its modification time, in microseconds
    of local time (the resolution of [datetime]). *)
Record file := File { content : list byte; mtime : Z }.

Definition st_size (f : file) : Z := Z.of_nat (length (content f)).

(** [self.stats] *)
Record stats := Stats {
  rotated : Z;
  compressed : Z;
  deleted : Z;
  errors : Z;
  bytes_freed : Z
}.

Definition stats0 : stats := Stats 0 0 0 0 0.

(** The file-system calls that changed something, oldest first. *)
Inductive fs_op :=
| OpRename (src dst : path)
| OpCopy (src dst : path)
| OpTruncate (p : path)
| OpWrite (p : path) (c : list byte)
| OpUnlink (p : path).

Record world := World {
  fs : gmap path file;
  st : stats;
  ops : list fs_op
}.

Inductive outcome :=
| Done (w : world)
| Raised (w : world).

Definition world_of (o : outcome) : world :=
  match o with Done w | Raised w => w end.

Definition action := world -> outcome.

Definition seq_ (a b : action) : action :=
  fun w => match a w with
           | Done w' => b w'
           | Raised w' => Raised w'
           end.

(** [try: a  except (OSError, PermissionError): h] *)
Definition try_except (a h : action) : action :=
  fun w => match a w with
           | Done w' => Done w'
           | Raised w' => h w'
           end.

Definition skip : action := Done.

Notation "a ;; b" := (seq_ a b) (at level 100, b at level 200).

(** [for x in xs: body(x)] *)
Fixpoint for_each {A} (xs : list A) (body : A -> action) : action :=
  match xs with
  | [] => skip
  | x :: xs' => body x ;; for_each xs' body
  end.

Definition set_fs (g : gmap path file -> gmap path file) (w : world) : world :=
  World (g (fs w)) (st w) (ops w).
Definition set_st (g : stats -> stats) (w : world) : world :=
  World (fs w) (g (st w)) (ops w).
Definition log_op (o : fs_op) (w : world) : world :=
  World (fs w) (st w) (ops w ++ [o]).

Definition incr_rotated (s : stats) : stats :=
  Stats (rotated s + 1) (compressed s) (deleted s) (errors s) (bytes_freed s).
Definition incr_compressed (s : stats) : stats :=
  Stats (rotated s) (compressed s + 1) (deleted s) (errors s) (bytes_freed s).
Definition incr_deleted (s : stats) : stats :=
  Stats (rotated s) (compressed s) (deleted s + 1) (errors s) (bytes_freed s).
Definition incr_errors (s : stats) : stats :=
  Stats (rotated s) (compressed s) (deleted s) (errors s + 1) (bytes_freed s).
Definition add_bytes_freed (n : Z) (s : stats) : stats :=
  Stats (rotated s) (compressed s) (deleted s) (errors s) (bytes_freed s + n).

Definition count (g : stats -> stats) : action := fun w => Done (set_st g w).

Definition exists_ (w : world) (p : path) : bool :=
  bool_decide (is_Some (fs w !! p)).

(* ===================================================================== *)
(** ** The host: clock readings and injected I/O failures *)
(* ===================================================================== *)

(** [shutil.copy2] either succeeds or raises, possibly leaving something at
    the destination. *)
Inductive copy_fault :=
| CopyOk
| CopyFails (leftover : option file).

(** The [with open(...): with gzip.open(...): copyfileobj] block either
    succeeds, fails before the output exists, or fails after the output was
    opened, leaving [partial] bytes in it. *)
Inductive gzip_fault :=
| GzipOk
| GzipOpenFails
| GzipWriteFails (partial : list byte).

Inductive dir_kind := DirMissing | NotADir | IsDir.

Record host := Host {
  now : Z;                             (* [datetime.now()] in the sweep *)
  write_time : Z;                      (* mtime of files written by the run *)
  deflate : list byte -> list byte;    (* what [gzip] writes for given bytes *)
  rename_fails : path -> bool;
  copy_fault_at : path -> copy_fault;
  truncate_fails : path -> bool;
  gzip_fault_at : path -> gzip_fault;
  unlink_fails : path -> bool;
  dir_kind_of : string -> dir_kind;
  listing_fails : string -> bool
}.

(** One group of [config['log_groups']], defaults already applied. *)
Record log_group := LogGroup {
  directory : string;
  pattern : string;
  max_age_days : Z;
  max_rotations : Z;
  compress : bool;
  min_size_mb : Q
}.

(** [timedelta(days=1)] in microseconds. *)
Definition day : Z := 86400000000.

(** [list(range(n, 0, -1))] *)
Fixpoint countdown (n : nat) : list nat :=
  match n with
  | O => []
  | S m => S m :: countdown m
  end.

Definition mtime_le (a b : path * file) : Prop := mtime (snd a) <= mtime (snd b).
Definition name_le (a b : path) : Prop := String.le (name a) (name b).

#[local] Instance mtime_le_dec : RelDecision mtime_le.
Proof. intros a b. unfold mtime_le. apply _. Defined.
#[local] Instance name_le_dec : RelDecision name_le.
Proof. intros a b. unfold name_le. apply _. Defined.

(** [dir.glob(pat)]: the entries of [dir] whose name matches, with their
    [stat] results, in directory order. *)
Definition glob (m : gmap path file) (dir pat : string) : list (path * file) :=
  filter (fun e => parent (fst e) = dir /\ fnmatch pat (name (fst e)) = true)
         (map_to_list m).

Section Engine.

Variable h : host.
Variable dry_run : bool.

(** *** File-system calls *)

Definition write_file (p : path) (f : file) (o : fs_op) : world -> world :=
  fun w => log_op o (set_fs (fun m => <[p := f]> m) w).

(** [src.rename(dst)] *)
Definition rename (src dst : path) : action :=
  fun w =>
    if rename_fails h src then Raised w
    else match fs w !! src with
         | Some f =>
             Done (log_op (OpRename src dst)
                          (set_fs (fun m => <[dst := f]> (delete src m)) w))
         | None => Raised w
         end.

(** [shutil.copy2(src, dst)]: bytes and modification time are copied. *)
Definition copy2 (src dst : path) : action :=
  fun w =>
    match fs w !! src with
    | Some f =>
        match copy_fault_at h src with
        | CopyOk => Done (write_file dst f (OpCopy src dst) w)
        | CopyFails (Some g) => Raised (write_file dst g (OpWrite dst (content g)) w)
        | CopyFails None => Raised w
        end
    | None => Raised w
    end.

(** [with open(p, 'w'): pass] *)
Definition truncate (p : path) : action :=
  fun w =>
    if truncate_fails h p then Raised w
    else Done (write_file p (File [] (write_time h)) (OpTruncate p) w).

(** The two nested [with] blocks around [shutil.copyfileobj(f_in, f_out)]. *)
Definition gzip_to (src dst : path) : action :=
  fun w =>
    match fs w !! src with
    | Some f =>
        match gzip_fault_at h src with
        | GzipOk =>
            let c := deflate h (content f) in
            Done (write_file dst (File c (write_time h)) (OpWrite dst c) w)
        | GzipOpenFails => Raised w
        | GzipWriteFails c =>
            Raised (write_file dst (File c (write_time h)) (OpWrite dst c) w)
        end
    | None => Raised w
    end.

(** [p.unlink()] *)
Definition unlink (p : path) : action :=
  fun w =>
    if unlink_fails h p then Raised w
    else match fs w !! p with
         | Some _ => Done (log_op (OpUnlink p) (set_fs (fun m => delete p m) w))
         | None => Raised w
         end.

(** [p.stat()], handed to the code that uses it. *)
Definition with_stat (p : path) (k : file -> action) : action :=
  fun w => match fs w !! p with
           | Some f => k f w
           | None => Raised w
           end.

(** *** [_should_rotate] *)

Definition should_rotate (w : world) (log_file : path) (min_size : Q) : bool :=
  match fs w !! log_file with
  | None => false
  | Some f =>
      if negb (Qle_bool min_size 0) then
        let size_mb := (inject_Z (st_size f) / inject_Z (1024 * 1024))%Q in
        if negb (Qle_bool min_size size_mb) then false else true
      else true
  end.

(** *** [_shift_rotations] *)

Definition shift_step (log_file : path) (i : nat) : action :=
  fun w =>
    let old_name := rotated_path log_file i in
    let new_name := rotated_path log_file (i + 1) in
    let old_gz := gz_path old_name in
    let new_gz := gz_path new_name in
    if exists_ w old_gz then
      if negb dry_run then rename old_gz new_gz w else Done w
    else if exists_ w old_name then
      if negb dry_run then rename old_name new_name w else Done w
    else Done w.

Definition shift_rotations (log_file : path) (max_rot : Z) : action :=
  for_each (countdown (Z.to_nat (max_rot - 1))) (shift_step log_file).

(** *** [_compress_rotated_logs] *)

(** The body of the [try] block: write the compressed copy, account for
    the space saved, remove the original, count the compression. *)
Definition compress_try (rotated_file compressed_file : path) : action :=
  gzip_to rotated_file compressed_file ;;
  with_stat rotated_file (fun fo =>
  with_stat compressed_file (fun fc =>
    let saved := st_size fo - st_size fc in
    count (add_bytes_freed saved) ;;
    unlink rotated_file ;;
    count incr_compressed)).

Definition compress_step (log_file : path) (i : nat) : action :=
  fun w =>
    let rotated_file := rotated_path log_file i in
    let compressed_file := gz_path rotated_file in
    if exists_ w rotated_file && negb (exists_ w compressed_file) then
      if negb dry_run then
        try_except (compress_try rotated_file compressed_file)
                   (count incr_errors) w
      else count incr_compressed w
    else Done w.

Definition compress_rotated_logs (log_file : path) (max_rot : Z) : action :=
  for_each (seq 1 (Z.to_nat max_rot)) (compress_step log_file).

(** *** [_cleanup_old_rotations] *)

Definition too_old (max_age : Z) (f : file) : bool :=
  mtime f <? now h - max_age * day.

Definition too_many (max_rot : Z) (rotated : path) : bool :=
  match rotation_num (name rotated) with
  | Some n => n >? max_rot
  | None => false
  end.

Definition cleanup_step (log_file : path) (max_age max_rot : Z)
    (rotated : path) : action :=
  if bool_decide (rotated = log_file) then skip
  else with_stat rotated (fun f =>
    if too_old max_age f || too_many max_rot rotated then
      let size := st_size f in
      if negb dry_run then
        try_except
          (unlink rotated ;; count incr_deleted ;; count (add_bytes_freed size))
          (count incr_errors)
      else count incr_deleted
    else skip).

(** [sorted(log_file.parent.glob(pattern), key=lambda p: p.stat().st_mtime)] *)
Definition rotated_files (m : gmap path file) (log_file : path) : list path :=
  fst <$> merge_sort mtime_le (glob m (parent log_file) (name log_file +:+ ".*")).

Definition cleanup_old_rotations (log_file : path) (max_age max_rot : Z) : action :=
  fun w =>
    for_each (rotated_files (fs w) log_file)
             (cleanup_step log_file max_age max_rot) w.

(** *** [_process_log_file] *)

(** The [try] block of the real run: snapshot, then truncate in place. *)
Definition copy_truncate (log_file : path) : action :=
  copy2 log_file (rotated_path log_file 1) ;; truncate log_file.

Definition process_log_file (log_file : path) (max_age max_rot : Z)
    (compress_ : bool) (min_size : Q) : action :=
  fun w =>
    if negb (should_rotate w log_file min_size) then Done w
    else
      let rest :=
        (if compress_ then compress_rotated_logs log_file max_rot else skip) ;;
        cleanup_old_rotations log_file max_age max_rot in
      (shift_rotations log_file max_rot ;;
       fun w1 =>
         if negb dry_run then
           match copy_truncate log_file w1 with
           | Done w2 => (count incr_rotated ;; rest) w2
           | Raised w2 => count incr_errors w2
           end
         else (count incr_rotated ;; rest) w1) w.

(** *** [_find_log_files], [_process_log_group], [rotate_logs] *)

Definition find_log_files (w : world) (log_dir pat : string) : option (list path) :=
  if has_wildcard pat then
    if listing_fails h log_dir then None
    else Some (merge_sort name_le (fst <$> glob (fs w) log_dir pat))
  else
    Some (if exists_ w (log_dir, pat) then [(log_dir, pat)] else []).

Definition process_log_group (g : log_group) : action :=
  fun w =>
    match dir_kind_of h (directory g) with
    | DirMissing => Done w
    | NotADir => count incr_errors w
    | IsDir =>
        match find_log_files w (directory g) (pattern g) with
        | None => count incr_errors w
        | Some log_files =>
            for_each log_files (fun log_file =>
              try_except
                (process_log_file log_file (max_age_days g) (max_rotations g)
                                  (compress g) (min_size_mb g))
                (count incr_errors)) w
        end
    end.

(** The exit code and the final world. *)
Definition rotate_logs (groups : list (string * log_group)) (w : world) : Z * world :=
  match groups with
  | [] => (1, w)
  | _ =>
      let w' := world_of (for_each groups (fun g => process_log_group (snd g)) w) in
      (if bool_decide (errors (st w') = 0) then 0 else 1, w')
  end.

End Engine.

(** A host on which no call fails. *)
Definition quiet (t tw : Z) (gz : list byte -> list byte) : host :=
  Host t tw gz (fun _ => false) (fun _ => CopyOk) (fun _ => false)
       (fun _ => GzipOk) (fun _ => false) (fun _ => IsDir) (fun _ => false).

Record no_faults (h : host) : Prop := NoFaults {
  nf_rename : forall p, rename_fails h p = false;
  nf_copy : forall p, copy_fault_at h p = CopyOk;
  nf_truncate : forall p, truncate_fails h p = false;
  nf_gzip : forall p, gzip_fault_at h p = GzipOk;
  nf_unlink : forall p, unlink_fails h p = false
}.

(** An action that leaves the file system alone. *)
Definition read_only (a : action) : Prop :=
  forall w, fs (world_of (a w)) = fs w /\ ops (world_of (a w)) = ops w.

(* ===================================================================== *)
(** ** Names of generations *)
(* ===================================================================== *)

Fixpoint all_digits (s : string) : bool :=
  match s with
  | String c r => is_digit c && all_digits r
  | EmptyString => true
  end.

Fixpoint last_char (s : string) : option ascii :=
  match s with
  | String c EmptyString => Some c
  | String _ r => last_char r
  | EmptyString => None
  end.

Definition gen_tail (tail : string) : Prop := tail = "" \/ tail = ".gz".

(** The artifacts of generation [i]: the plain one and the compressed one. *)
Inductive slot := Plain (i : nat) | Gz (i : nat).

Definition slot_num (s : slot) : nat := match s with Plain i | Gz i => i end.

Definition slot_path (l : path) (s : slot) : path :=
  match s with
  | Plain i => rotated_path l i
  | Gz i => gz_path (rotated_path l i)
  end.

#[local] Instance slot_eq_dec : EqDecision slot.
Proof. solve_decision. Defined.

(* ===================================================================== *)
(** ** A worked scenario *)
(* ===================================================================== *)

Definition app_log : path := ("/var/log", "app.log").

(** [app.log] with one plain and one compressed earlier generation. *)
Definition scenario_fs (f0 f1 f2 : file) : gmap path file :=
  <[app_log := f0]>
    (<[rotated_path app_log 1 := f1]>
       (<[gz_path (rotated_path app_log 2) := f2]> ∅)).

Definition scenario_rotated (tw : Z) (f0 f1 f2 : file) : gmap path file :=
  <[app_log := File [] tw]>
    (<[rotated_path app_log 1 := f0]>
       (<[rotated_path app_log 2 := f1]>
          (<[gz_path (rotated_path app_log 3) := f2]> ∅))).

(* ===================================================================== *)
(** ** What one compression attempt amounts to *)
(* ===================================================================== *)

(** The compressed artifact [gzip] writes for [f]. *)
Definition full_gz (h : host) (f : file) : file :=
  File (deflate h (content f)) (write_time h).

(** The fate of generation [i] in the compression pass: skipped, compressed,
    or attempted and failed with [left] at the compressed name and the space
    saved already [counted] or not. *)
Inductive verdict :=
| Skip
| Packed (f : file)
| Broken (f : file) (left : option file) (counted : bool).

Definition compress_verdict (h : host) (l : path) (i : nat)
    (m : gmap path file) : verdict :=
  match m !! slot_path l (Plain i), m !! slot_path l (Gz i) with
  | Some f, None =>
      match gzip_fault_at h (slot_path l (Plain i)) with
      | GzipOk =>
          if unlink_fails h (slot_path l (Plain i))
          then Broken f (Some (full_gz h f)) true
          else Packed f
      | GzipOpenFails => Broken f None false
      | GzipWriteFails c => Broken f (Some (File c (write_time h))) false
      end
  | _, _ => Skip
  end.

Definition verdict_fs (h : host) (l : path) (i : nat) (v : verdict)
    (m : gmap path file) : gmap path file :=
  match v with
  | Skip => m
  | Packed f => delete (slot_path l (Plain i)) (<[slot_path l (Gz i) := full_gz h f]> m)
  | Broken _ (Some g) _ => <[slot_path l (Gz i) := g]> m
  | Broken _ None _ => m
  end.

Definition saved_bytes (h : host) (f : file) : Z :=
  st_size f - st_size (full_gz h f).

Definition verdict_st (h : host) (v : verdict) (s : stats) : stats :=
  match v with
  | Skip => s
  | Packed f => incr_compressed (add_bytes_freed (saved_bytes h f) s)
  | Broken f _ true => incr_errors (add_bytes_freed (saved_bytes h f) s)
  | Broken f _ false => incr_errors s
  end.

Definition verdict_ops (h : host) (l : path) (i : nat) (v : verdict) : list fs_op :=
  match v with
  | Skip => []
  | Packed f =>
      [OpWrite (slot_path l (Gz i)) (deflate h (content f));
       OpUnlink (slot_path l (Plain i))]
  | Broken _ (Some g) _ => [OpWrite (slot_path l (Gz i)) (content g)]
  | Broken _ None _ => []
  end.

(** The pass over the generations [gens], as the verdicts on the files the
    pass starts from. *)
Definition verdicts_fs (h : host) (l : path) (gens : list nat)
    (m : gmap path file) : gmap path file :=
  foldl (fun acc i => verdict_fs h l i (compress_verdict h l i m) acc) m gens.

Definition verdicts_st (h : host) (l : path) (gens : list nat)
    (m : gmap path file) (s : stats) : stats :=
  foldl (fun acc i => verdict_st h (compress_verdict h l i m) acc) s gens.

Definition verdicts_ops (h : host) (l : path) (gens : list nat)
    (m : gmap path file) : list fs_op :=
  concat ((fun i => verdict_ops h l i (compress_verdict h l i m)) <$> gens).

(** The host makes the [try] block of the compression of [p] raise: the
    writing of the compressed copy fails, or the final [unlink] does. *)
Definition compress_fails (h : host) (p : path) : bool :=
  match gzip_fault_at h p with
  | GzipOk => unlink_fails h p
  | GzipOpenFails | GzipWriteFails _ => true
  end.

Definition is_raised (o : outcome) : bool :=
  match o with Raised _ => true | Done _ => false end.

(** The test [rotated_file.exists() and not compressed_file.exists()] for
    generation [i] on the files [m]. *)
Definition attempted (l : path) (m : gmap path file) (i : nat) : bool :=
  bool_decide (is_Some (m !! rotated_path l i))
  && negb (bool_decide (is_Some (m !! gz_path (rotated_path l i)))).

Definition failing (h : host) (l : path) (m : gmap path file) (i : nat) : bool :=
  attempted l m i && compress_fails h (rotated_path l i).

Definition count_of (P : nat -> bool) (gens : list nat) : Z :=
  Z.of_nat (length (filter (fun i => P i = true) gens)).

(** A host on which the writing of the compressed copy of [p] breaks off
    after [partial] was written, and nothing else fails. *)
Definition breaks_at (tw : Z) (gz : list byte -> list byte)
    (p : path) (partial : list byte) : host :=
  Host 0 tw gz (fun _ => false) (fun _ => CopyOk) (fun _ => false)
       (fun q => if bool_decide (q = p) then GzipWriteFails partial else GzipOk)
       (fun _ => false) (fun _ => IsDir) (fun _ => false).

(* ===================================================================== *)
(** ** What the retention sweep does to one file *)
(* ===================================================================== *)

(** The test [too_old or too_many] on one artifact. *)
Definition expired (h : host) (max_age max_rot : Z) (p : path) (f : file) : bool :=
  too_old h max_age f || too_many max_rot p.

(** The sweep decides to delete [p], one of the files [m]. *)
Definition selected (h : host) (l : path) (max_age max_rot : Z)
    (m : gmap path file) (p : path) : bool :=
  negb (bool_decide (p = l))
  && match m !! p with
     | Some f => expired h max_age max_rot p f
     | None => false
     end.

(** The decision is carried out: the [unlink] does not fail. *)
Definition removed (h : host) (l : path) (max_age max_rot : Z)
    (m : gmap path file) (p : path) : bool :=
  selected h l max_age max_rot m p && negb (unlink_fails h p).

Definition sweep_fs (h : host) (l : path) (max_age max_rot : Z)
    (ps : list path) (m : gmap path file) : gmap path file :=
  foldl (fun acc p => if removed h l max_age max_rot m p then delete p acc else acc)
        m ps.

Definition sweep_stat (h : host) (l : path) (max_age max_rot : Z)
    (m : gmap path file) (p : path) (s : stats) : stats :=
  if selected h l max_age max_rot m p then
    if unlink_fails h p then incr_errors s
    else add_bytes_freed (from_option st_size 0 (m !! p)) (incr_deleted s)
  else s.

Definition sweep_st (h : host) (l : path) (max_age max_rot : Z)
    (ps : list path) (m : gmap path file) (s : stats) : stats :=
  foldl (fun acc p => sweep_stat h l max_age max_rot m p acc) s ps.

Definition sweep_ops (h : host) (l : path) (max_age max_rot : Z)
    (ps : list path) (m : gmap path file) : list fs_op :=
  OpUnlink <$> filter (fun p => removed h l max_age max_rot m p = true) ps.

(* ===================================================================== *)
(** ** Counters that only grow *)
(* ===================================================================== *)

(** The counters of [s'] that count events are at least those of [s]
    ([bytes_freed] is left out: a compressed copy can be larger than its
    original). *)
Definition counters_le (s s' : stats) : Prop :=
  rotated s <= rotated s' /\ compressed s <= compressed s' /\
  deleted s <= deleted s' /\ errors s <= errors s'.

Definition growing (a : action) : Prop :=
  forall w, counters_le (st w) (st (world_of (a w))).


(** A host on which every directory is missing. *)
Definition no_directories : host :=
  Host 0 0 id (fun _ => false) (fun _ => CopyOk) (fun _ => false)
       (fun _ => GzipOk) (fun _ => false) (fun _ => DirMissing) (fun _ => false).

Definition example_group : log_group :=
  LogGroup "/var/log" "app.log" 30 3 true 0.

(** The sweep examines [q]: it is in the directory of the log file and its
    name matches [<name>.*]. *)
Definition examined (l q : path) : bool :=
  bool_decide (parent q = parent l) && fnmatch (name l +:+ ".*") (name q).

(** What a dry run of the sweep adds to [deleted]. *)
Definition dry_sweep_st (h : host) (l : path) (max_age max_rot : Z)
    (ps : list path) (m : gmap path file) (s : stats) : stats :=
  foldl (fun acc p => if selected h l max_age max_rot m p
                      then incr_deleted acc else acc) s ps.

(** An old file next to the log that carries no generation number. *)
Definition stale_fs : gmap path file :=
  <[app_log := File [] 100]> (<[("/var/log", "app.log.bak") := File ["x"%byte] 0]> ∅).

(** What a dry run of the compression pass adds to [compressed]. *)
Definition dry_compress_st (l : path) (gens : list nat)
    (m : gmap path file) (s : stats) : stats :=
  foldl (fun acc i => if attempted l m i then incr_compressed acc else acc) s gens.

(** A compressor whose output is longer than its input. *)
Definition padding_gz (c : list byte) : list byte := "x"%byte :: "x"%byte :: c.

(** The call is a rename between two generation names of [l]. *)
Definition is_generation_rename (l : path) (o : fs_op) : Prop :=
  match o with
  | OpRename src dst => exists s s', src = slot_path l s /\ dst = slot_path l s'
  | _ => False
  end.

(** What the generation shift may do to a world: counters stay, paths
    other than generation names of [l] keep their files, and the calls it
    adds are renames between generation names. *)
Definition shifted_from (l : path) (w w' : world) : Prop :=
  st w' = st w /\
  (forall q, (forall s, q <> slot_path l s) -> fs w' !! q = fs w !! q) /\
  exists tr, ops w' = ops w ++ tr /\ Forall (is_generation_rename l) tr.

(** A host on which truncating a file fails and nothing else does. *)
Definition no_truncate : host :=
  Host 1000 7 id (fun _ => false) (fun _ => CopyOk) (fun _ => true)
       (fun _ => GzipOk) (fun _ => false) (fun _ => IsDir) (fun _ => false).

(* ===================================================================== *)
(** * Properties *)
(* ===================================================================== *)

(** ** Strings, digits and generation names *)

Lemma quiet_no_faults (t tw : Z) (gz : list byte -> list byte) :
  no_faults (quiet t tw gz).
Proof. by constructor. Qed.

Lemma app_cons_s (x : ascii) (a b : string) :
  String x a +:+ b = String x (a +:+ b).
Proof. reflexivity. Qed.

Lemma app_assoc_s (a b c : string) : (a +:+ b) +:+ c = a +:+ b +:+ c.
Proof. induction a as [|x a IH]; [done|]. by rewrite !app_cons_s, IH. Qed.

Lemma app_nil_s (a : string) : a +:+ "" = a.
Proof. induction a as [|x a IH]; [done|]. by rewrite app_cons_s, IH. Qed.

Lemma length_app_s (a b : string) :
  String.length (a +:+ b) = (String.length a + String.length b)%nat.
Proof. induction a as [|x a IH]; [done|]. rewrite app_cons_s. cbn. by rewrite IH. Qed.

Lemma last_char_app (a b : string) :
  b <> "" -> last_char (a +:+ b) = last_char b.
Proof.
  intros Hb. induction a as [|x a IH]; [done|].
  rewrite app_cons_s. cbn. rewrite IH. destruct (a +:+ b) eqn:E; [|done].
  destruct a; [|discriminate]. by destruct Hb.
Qed.

Lemma last_char_digit (s : string) :
  s <> "" -> all_digits s = true ->
  exists c, last_char s = Some c /\ is_digit c = true.
Proof.
  induction s as [|x s IH]; [done|]. intros _ [Hx Hs]%andb_prop.
  destruct s as [|y s]; [by exists x|].
  destruct IH as (c & Hc & Hd); [done|done|]. by exists c.
Qed.

Lemma is_digit_pretty_N_char (d : N) : is_digit (pretty_N_char d) = true.
Proof. unfold pretty_N_char. by repeat case_match. Qed.

Lemma digit_value_pretty_N_char (d : N) :
  (d < 10)%N -> digit_value (pretty_N_char d) = d.
Proof.
  intros Hd.
  assert (d = 0 \/ d = 1 \/ d = 2 \/ d = 3 \/ d = 4 \/ d = 5 \/ d = 6
          \/ d = 7 \/ d = 8 \/ d = 9)%N as Hc by lia.
  by destruct Hc as [->|[->|[->|[->|[->|[->|[->|[->|[->| ->]]]]]]]]].
Qed.

Lemma all_digits_pretty_N_go (x : N) (s : string) :
  all_digits s = true -> all_digits (pretty_N_go x s) = true.
Proof.
  revert s. induction (N.lt_wf_0 x) as [x _ IH]. intros s Hs.
  destruct (decide (x = 0)%N) as [->|Hx]; [by rewrite pretty_N_go_0|].
  rewrite pretty_N_go_step by lia. apply IH.
  - apply N.div_lt; lia.
  - cbn. by rewrite is_digit_pretty_N_char.
Qed.

Lemma length_pretty_N_go (x : N) (s : string) :
  (String.length s <= String.length (pretty_N_go x s))%nat.
Proof.
  revert s. induction (N.lt_wf_0 x) as [x _ IH]. intros s.
  destruct (decide (x = 0)%N) as [->|Hx]; [by rewrite pretty_N_go_0|].
  rewrite pretty_N_go_step by lia.
  etrans; [|apply IH, N.div_lt; lia]. cbn. lia.
Qed.

Lemma int_digits_pretty_N_go (x : N) (s : string) :
  int_digits 0 (pretty_N_go x s) = int_digits x s.
Proof.
  revert s. induction (N.lt_wf_0 x) as [x _ IH]. intros s.
  destruct (decide (x = 0)%N) as [->|Hx]; [by rewrite pretty_N_go_0|].
  rewrite pretty_N_go_step by lia. rewrite IH by (apply N.div_lt; lia).
  cbn. rewrite digit_value_pretty_N_char by (apply N.mod_lt; lia).
  f_equal. pose proof (N.div_mod x 10). lia.
Qed.

(** The decimal rendering of a number: digits only, never empty, and read
    back by [int]. *)
Lemma pretty_nat_digits (n : nat) :
  all_digits (pretty n) = true /\ pretty n <> "" /\
  int_digits 0 (pretty n) = N.of_nat n.
Proof.
  unfold pretty, pretty_nat, pretty, pretty_N.
  destruct (decide (N.of_nat n = 0)%N) as [->|Hn]; [done|].
  split_and!.
  - by apply all_digits_pretty_N_go.
  - intros E. pose proof (length_pretty_N_go (N.of_nat n `div` 10)
      (String (pretty_N_char (N.of_nat n `mod` 10)) "")) as Hl.
    rewrite <- pretty_N_go_step, E in Hl by lia. cbn in Hl. lia.
  - by rewrite int_digits_pretty_N_go.
Qed.

Lemma span_digits_app (ds r : string) :
  all_digits ds = true ->
  match r with String c _ => is_digit c = false | EmptyString => True end ->
  span_digits (ds +:+ r) = (ds, r).
Proof.
  intros Hds Hr. induction ds as [|x ds IH].
  - change ("" +:+ r) with r. destruct r as [|c r]; [done|]. cbn. by rewrite Hr.
  - apply andb_prop in Hds as [Hx Hds]. rewrite app_cons_s. cbn.
    by rewrite Hx, IH.
Qed.

Lemma span_digits_stops_at_dot (x r : string) :
  exists rest0, snd (span_digits (x +:+ String "." r)) = rest0 +:+ String "." r.
Proof.
  induction x as [|a x [rest0 IH]].
  - by exists "".
  - rewrite app_cons_s. cbn. destruct (is_digit a).
    + destruct (span_digits (x +:+ String "." r)) as [ds rest]. by exists rest0.
    + by exists (String a x).
Qed.

Lemma at_gz_end_inv (rest : string) :
  at_gz_end rest = true ->
  rest = "" \/ rest = String newline "" \/ rest = ".gz"
  \/ rest = ".gz" +:+ String newline "".
Proof.
  unfold at_gz_end. intros H.
  repeat (apply orb_prop in H as [H|H]); apply bool_decide_eq_true in H; auto.
Qed.

Lemma at_gz_end_inside (rest0 p tail : string) :
  p <> "" -> all_digits p = true -> gen_tail tail ->
  at_gz_end (rest0 +:+ String "." (p +:+ tail)) = false.
Proof.
  intros Hne Hp Ht. apply not_true_is_false. intros H%at_gz_end_inv.
  destruct Ht as [-> | ->].
  - destruct (last_char_digit p Hne Hp) as (c & Hc & Hd).
    assert (last_char (rest0 +:+ String "." (p +:+ "")) = Some c) as Hl.
    { rewrite last_char_app, app_nil_s by done. by destruct p. }
    destruct H as [H|[H|[H|H]]]; rewrite H in Hl; vm_compute in Hl;
      simplify_eq; vm_compute in Hd; done.
  - assert (5 <= String.length (rest0 +:+ String "." (p +:+ ".gz")))%nat as Hl.
    { rewrite length_app_s. cbn. rewrite length_app_s. cbn.
      destruct p; [done|]. cbn. lia. }
    destruct H as [H|[H|[H|H]]]; rewrite H in Hl; vm_compute in Hl; lia.
Qed.

Lemma match_here_generation (p tail : string) :
  p <> "" -> all_digits p = true -> gen_tail tail ->
  match_here (String "." (p +:+ tail)) = Some p.
Proof.
  intros Hne Hp Ht. cbn. rewrite span_digits_app; [|done|].
  - rewrite bool_decide_eq_true_2, (bool_decide_eq_false_2 (p = "")) by done.
    by destruct Ht as [-> | ->].
  - by destruct Ht as [-> | ->].
Qed.

Lemma re_search_generation (nm p tail : string) :
  p <> "" -> all_digits p = true -> gen_tail tail ->
  re_search (nm +:+ String "." (p +:+ tail)) = Some p.
Proof.
  intros Hne Hp Ht. induction nm as [|a nm IH].
  - change (re_search (String "." (p +:+ tail)) = Some p).
    destruct (p +:+ tail) eqn:E; cbn [re_search];
      rewrite <- ?E, match_here_generation; done.
  - rewrite app_cons_s. cbn [re_search].
    assert (match_here (String a (nm +:+ String "." (p +:+ tail))) = None) as ->.
    { unfold match_here. case_bool_decide; [|done].
      destruct (span_digits_stops_at_dot nm (p +:+ tail)) as [rest0 Hr].
      destruct (span_digits _) as [ds rest]. cbn in Hr. subst rest.
      by rewrite at_gz_end_inside, andb_false_r. }
    exact IH.
Qed.

Lemma rotated_name_eq (l : path) (i : nat) :
  name (rotated_path l i) = name l +:+ String "." (pretty i +:+ "").
Proof. by rewrite app_nil_s. Qed.

Lemma gz_name_eq (l : path) (i : nat) :
  name (gz_path (rotated_path l i)) = name l +:+ String "." (pretty i +:+ ".gz").
Proof.
  unfold gz_path, rotated_path, name. cbn [snd fst].
  by rewrite app_assoc_s.
Qed.

Lemma rotation_num_generation (nm tail : string) (i : nat) :
  gen_tail tail ->
  rotation_num (nm +:+ String "." (pretty i +:+ tail)) = Some (Z.of_nat i).
Proof.
  intros Ht. destruct (pretty_nat_digits i) as (Hd & Hne & Hi).
  unfold rotation_num. rewrite re_search_generation by done.
  cbn. rewrite Hi. f_equal. lia.
Qed.

Lemma rotation_num_rotated (l : path) (i : nat) :
  rotation_num (name (rotated_path l i)) = Some (Z.of_nat i).
Proof. rewrite rotated_name_eq. apply rotation_num_generation. by left. Qed.

Lemma rotation_num_gz (l : path) (i : nat) :
  rotation_num (name (gz_path (rotated_path l i))) = Some (Z.of_nat i).
Proof. rewrite gz_name_eq. apply rotation_num_generation. by right. Qed.

Lemma last_char_rotated (l : path) (i : nat) :
  exists c, last_char (name (rotated_path l i)) = Some c /\ is_digit c = true.
Proof.
  destruct (pretty_nat_digits i) as (Hd & Hne & _).
  destruct (last_char_digit _ Hne Hd) as (c & Hc & Hdc). exists c. split; [|done].
  unfold rotated_path, name. cbn [snd]. rewrite last_char_app by done.
  by rewrite last_char_app.
Qed.

Lemma last_char_gz (p : path) : last_char (name (gz_path p)) = Some "z"%char.
Proof. unfold gz_path, name. cbn [snd]. by rewrite last_char_app. Qed.

Lemma rotation_num_slot (l : path) (s : slot) :
  rotation_num (name (slot_path l s)) = Some (Z.of_nat (slot_num s)).
Proof. destruct s; [apply rotation_num_rotated | apply rotation_num_gz]. Qed.

Lemma slot_path_inj (l : path) (s s' : slot) :
  slot_path l s = slot_path l s' -> s = s'.
Proof.
  intros E.
  assert (slot_num s = slot_num s') as En.
  { pose proof (rotation_num_slot l s) as H1.
    pose proof (rotation_num_slot l s') as H2.
    rewrite E in H1. rewrite H1 in H2. injection H2. lia. }
  destruct s as [i|i], s' as [j|j]; cbn in En; subst; [done| | |done].
  - destruct (last_char_rotated l j) as (c & Hc & Hd).
    cbn in E. rewrite E, last_char_gz in Hc. by simplify_eq.
  - destruct (last_char_rotated l j) as (c & Hc & Hd).
    cbn in E. rewrite <- E, last_char_gz in Hc. by simplify_eq.
Qed.

Lemma slot_path_parent (l : path) (s : slot) : parent (slot_path l s) = parent l.
Proof. by destruct s. Qed.

Lemma slot_path_ne_log (l : path) (s : slot) : slot_path l s <> l.
Proof.
  intros E. assert (String.length (name (slot_path l s)) = String.length (name l)) as Hl
    by by rewrite E.
  destruct s; cbn [slot_path] in Hl;
    [rewrite rotated_name_eq in Hl | rewrite gz_name_eq in Hl];
    rewrite length_app_s in Hl; cbn in Hl; lia.
Qed.

Lemma any_suffix_end (k : string -> bool) (s : string) :
  k "" = true -> any_suffix k s = true.
Proof.
  intros Hk. induction s as [|c s IH]; cbn [any_suffix].
  - by rewrite Hk.
  - by rewrite IH, orb_true_r.
Qed.

Lemma fnmatch_star (s : string) : fnmatch "*" s = true.
Proof. by apply (any_suffix_end (fnmatch "")). Qed.

Lemma fnmatch_dot_star (nm rest : string) :
  has_wildcard nm = false ->
  fnmatch (nm +:+ ".*") (nm +:+ String "." rest) = true.
Proof.
  intros Hw. induction nm as [|c nm IH].
  - change (fnmatch ".*" (String "." rest) = true).
    cbn [fnmatch]. rewrite bool_decide_eq_false_2 by done.
    rewrite (bool_decide_eq_true_2 ("."%char = "."%char)) by done.
    rewrite orb_true_r. apply (fnmatch_star rest).
  - cbn in Hw. apply orb_false_elim in Hw as [[H1 H2]%orb_false_elim Hw].
    rewrite !app_cons_s. cbn [fnmatch]. rewrite H1.
    rewrite (bool_decide_eq_true_2 (c = c)) by done.
    rewrite orb_true_r. by apply IH.
Qed.

Lemma fnmatch_slot (l : path) (s : slot) :
  has_wildcard (name l) = false ->
  fnmatch (name l +:+ ".*") (name (slot_path l s)) = true.
Proof.
  intros Hw. destruct s; cbn [slot_path];
    [rewrite rotated_name_eq | rewrite gz_name_eq]; by apply fnmatch_dot_star.
Qed.

(** ** Dry runs *)

Section DryRun.

Variable h : host.

Lemma read_only_skip : read_only skip.
Proof. by intros w. Qed.

Lemma read_only_count (g : stats -> stats) : read_only (count g).
Proof. by intros w. Qed.

Lemma read_only_seq (a b : action) :
  read_only a -> read_only b -> read_only (a ;; b).
Proof.
  intros Ha Hb w. unfold seq_. specialize (Ha w).
  destruct (a w) as [w1|w1]; cbn in Ha; [|done].
  destruct (Hb w1) as [H1 H2]. destruct Ha as [H3 H4]. split; congruence.
Qed.

Lemma read_only_try (a b : action) :
  read_only a -> read_only b -> read_only (try_except a b).
Proof.
  intros Ha Hb w. unfold try_except. specialize (Ha w).
  destruct (a w) as [w1|w1]; cbn in Ha; [done|].
  destruct (Hb w1) as [H1 H2]. destruct Ha as [H3 H4]. split; congruence.
Qed.

Lemma read_only_for_each {A} (xs : list A) (body : A -> action) :
  (forall x, read_only (body x)) -> read_only (for_each xs body).
Proof.
  intros Hb. induction xs as [|x xs IH]; cbn [for_each].
  - apply read_only_skip.
  - by apply read_only_seq.
Qed.

Lemma read_only_with_stat (p : path) (k : file -> action) :
  (forall f, read_only (k f)) -> read_only (with_stat p k).
Proof.
  intros Hk w. unfold with_stat. destruct (fs w !! p); [apply Hk|done].
Qed.

Lemma shift_dry_read_only (l : path) (k : Z) :
  read_only (shift_rotations h true l k).
Proof.
  apply read_only_for_each. intros i w. unfold shift_step. cbn.
  by repeat case_match.
Qed.

Lemma compress_dry_read_only (l : path) (k : Z) :
  read_only (compress_rotated_logs h true l k).
Proof.
  apply read_only_for_each. intros i w. unfold compress_step. cbn.
  by repeat case_match.
Qed.

Lemma cleanup_dry_read_only (l : path) (age k : Z) :
  read_only (cleanup_old_rotations h true l age k).
Proof.
  intros w. unfold cleanup_old_rotations.
  apply read_only_for_each. intros p. unfold cleanup_step.
  case_bool_decide; [apply read_only_skip|].
  apply read_only_with_stat. intros f. cbn.
  case_match; [apply read_only_count | apply read_only_skip].
Qed.

Lemma process_log_file_dry_read_only (l : path) (age k : Z) (c : bool) (ms : Q) :
  read_only (process_log_file h true l age k c ms).
Proof.
  intros w. unfold process_log_file. case_match; [done|]. cbn [negb].
  apply read_only_seq; [apply shift_dry_read_only|].
  apply read_only_seq; [apply read_only_count|].
  apply read_only_seq; [|apply cleanup_dry_read_only].
  destruct c; [apply compress_dry_read_only | apply read_only_skip].
Qed.

Lemma process_log_group_dry_read_only (g : log_group) :
  read_only (process_log_group h true g).
Proof.
  intros w. unfold process_log_group.
  destruct (dir_kind_of h (directory g)); [done|done|].
  destruct (find_log_files h w (directory g) (pattern g)) as [fl|]; [|done].
  apply read_only_for_each. intros l.
  apply read_only_try; [apply process_log_file_dry_read_only|].
  apply read_only_count.
Qed.

End DryRun.

(** C7. A run with the dry-run flag set leaves every file as it was and
    makes no call that creates, renames, truncates, compresses or deletes
    a file, whatever the configuration, the file system and the failures
    the host would inject. *)
Theorem dry_run_leaves_filesystem_unchanged
    (h : host) (groups : list (string * log_group)) (w : world) :
  fs (snd (rotate_logs h true groups w)) = fs w /\
  ops (snd (rotate_logs h true groups w)) = ops w.
Proof.
  unfold rotate_logs. destruct groups as [|g groups]; [done|].
  cbn [snd]. apply (read_only_for_each (g :: groups)).
  intros x. apply process_log_group_dry_read_only.
Qed.

(** ** The scenario of a group keeping three generations *)

(** C2. With three generations kept and [app.log], [app.log.1] and
    [app.log.2.gz] on disk, the shift followed by copy-and-truncate leaves
    exactly an empty [app.log], [app.log.1] holding the old bytes of
    [app.log], [app.log.2] holding the old [app.log.1] and [app.log.3.gz]
    holding the old [app.log.2.gz]; the name [app.log.2.gz] is gone. *)
Theorem rotation_scenario_three_generations
    (t tw : Z) (gz : list byte -> list byte) (f0 f1 f2 : file)
    (s : stats) (o : list fs_op) :
  let h := quiet t tw gz in
  let w := World (scenario_fs f0 f1 f2) s o in
  should_rotate w app_log 0 = true /\
  exists w',
    (shift_rotations h false app_log 3 ;; copy_truncate h app_log) w = Done w' /\
    fs w' = scenario_rotated tw f0 f1 f2 /\
    fs w' !! gz_path (rotated_path app_log 2) = None /\
    fs w' !! app_log = Some (File [] tw) /\
    fs w' !! rotated_path app_log 1 = Some f0 /\
    fs w' !! rotated_path app_log 2 = Some f1 /\
    fs w' !! gz_path (rotated_path app_log 3) = Some f2 /\
    st w' = s.
Proof.
  intros h w. split; [vm_compute; reflexivity|].
  eexists. split; [vm_compute; reflexivity|].
  cbn [fs st].
  repeat split; vm_compute; reflexivity.
Qed.

(** ** The compression pass *)

Lemma exists_Some (w : world) (p : path) (f : file) :
  fs w !! p = Some f -> exists_ w p = true.
Proof. intros E. unfold exists_. rewrite E. by apply bool_decide_eq_true_2. Qed.

Lemma exists_None (w : world) (p : path) :
  fs w !! p = None -> exists_ w p = false.
Proof.
  intros E. unfold exists_. rewrite E.
  apply bool_decide_eq_false_2. by intros [? ?].
Qed.

Lemma lookup_slot_insert (l : path) (s s' : slot) (f : file) (m : gmap path file) :
  <[slot_path l s := f]> m !! slot_path l s'
  = if decide (s = s') then Some f else m !! slot_path l s'.
Proof.
  destruct (decide (s = s')) as [->|Hne].
  - by rewrite lookup_insert_eq.
  - rewrite lookup_insert_ne; [done|]. by intros ?%slot_path_inj.
Qed.

Lemma lookup_slot_delete (l : path) (s s' : slot) (m : gmap path file) :
  delete (slot_path l s) m !! slot_path l s'
  = if decide (s = s') then None else m !! slot_path l s'.
Proof.
  destruct (decide (s = s')) as [->|Hne].
  - by rewrite lookup_delete_eq.
  - rewrite lookup_delete_ne; [done|]. by intros ?%slot_path_inj.
Qed.

Lemma compress_step_verdict (h : host) (l : path) (i : nat) (w : world) :
  let v := compress_verdict h l i (fs w) in
  compress_step h false l i w
  = Done (World (verdict_fs h l i v (fs w)) (verdict_st h v (st w))
                (ops w ++ verdict_ops h l i v)).
Proof.
  cbn zeta. unfold compress_step, compress_verdict.
  change (rotated_path l i) with (slot_path l (Plain i)).
  change (gz_path (slot_path l (Plain i))) with (slot_path l (Gz i)).
  destruct (fs w !! slot_path l (Plain i)) as [f|] eqn:Ep.
  2:{ rewrite (exists_None _ _ Ep). destruct w. cbn. by rewrite app_nil_r. }
  rewrite (exists_Some _ _ _ Ep).
  destruct (fs w !! slot_path l (Gz i)) as [g|] eqn:Eg.
  { rewrite (exists_Some _ _ _ Eg). destruct w. cbn. by rewrite app_nil_r. }
  rewrite (exists_None _ _ Eg). cbn [andb negb].
  unfold try_except, compress_try, seq_, gzip_to. rewrite Ep.
  destruct (gzip_fault_at h (slot_path l (Plain i))) as [| |c] eqn:Ef.
  - unfold with_stat, write_file, log_op, set_fs, count, set_st, unlink.
    cbn [fs st ops].
    rewrite (lookup_slot_insert l (Gz i) (Plain i)), Ep.
    rewrite decide_False by done. rewrite lookup_insert_eq.
    destruct (unlink_fails h (slot_path l (Plain i))); cbn;
      by rewrite <- ?app_assoc.
  - destruct w. cbn. by rewrite app_nil_r.
  - by cbn.
Qed.

Lemma foldl_ext_in {A B} (f g : A -> B -> A) (xs : list B) (a : A) :
  (forall x acc, x ∈ xs -> f acc x = g acc x) -> foldl f a xs = foldl g a xs.
Proof.
  revert a. induction xs as [|x xs IH]; intros a Hfg; [done|].
  cbn. rewrite Hfg by left. apply IH. intros y acc Hy. apply Hfg. by right.
Qed.

Lemma verdict_fs_lookup_other (h : host) (l : path) (i : nat) (v : verdict)
    (m : gmap path file) (s : slot) :
  slot_num s <> i ->
  verdict_fs h l i v m !! slot_path l s = m !! slot_path l s.
Proof.
  intros Hs. unfold verdict_fs.
  destruct v as [|f|f [g|] c]; rewrite ?lookup_slot_delete, ?lookup_slot_insert;
    repeat case_decide; subst; cbn in Hs; done.
Qed.

Lemma verdict_fs_lookup_frame (h : host) (l : path) (i : nat) (v : verdict)
    (m : gmap path file) (p : path) :
  p <> slot_path l (Plain i) -> p <> slot_path l (Gz i) ->
  verdict_fs h l i v m !! p = m !! p.
Proof.
  intros H1 H2. unfold verdict_fs.
  destruct v as [|f|f [g|] c];
    rewrite ?lookup_delete_ne, ?lookup_insert_ne by done; done.
Qed.

Lemma compress_verdict_ext (h : host) (l : path) (i : nat) (m m' : gmap path file) :
  m' !! slot_path l (Plain i) = m !! slot_path l (Plain i) ->
  m' !! slot_path l (Gz i) = m !! slot_path l (Gz i) ->
  compress_verdict h l i m' = compress_verdict h l i m.
Proof. intros H1 H2. unfold compress_verdict. by rewrite H1, H2. Qed.

Lemma compress_loop_verdicts (h : host) (l : path) (gens : list nat) (w : world) :
  NoDup gens ->
  for_each gens (compress_step h false l) w
  = Done (World (verdicts_fs h l gens (fs w))
                (verdicts_st h l gens (fs w) (st w))
                (ops w ++ verdicts_ops h l gens (fs w))).
Proof.
  revert w. induction gens as [|i gens IH]; intros w Hnd.
  { destruct w. cbn. by rewrite app_nil_r. }
  apply NoDup_cons in Hnd as [Hi Hnd].
  cbn [for_each]. unfold seq_ at 1. rewrite compress_step_verdict.
  rewrite IH by done. cbn [fs st ops].
  set (v := compress_verdict h l i (fs w)).
  assert (forall j, j ∈ gens ->
    compress_verdict h l j (verdict_fs h l i v (fs w))
    = compress_verdict h l j (fs w)) as Hv.
  { intros j Hj. assert (j <> i) by (intros ->; done).
    apply compress_verdict_ext; by apply verdict_fs_lookup_other. }
  f_equal. f_equal.
  - unfold verdicts_fs. cbn [foldl]. fold v.
    apply foldl_ext_in. intros j acc Hj. by rewrite Hv.
  - unfold verdicts_st. cbn [foldl]. fold v.
    apply foldl_ext_in. intros j acc Hj. by rewrite Hv.
  - unfold verdicts_ops. cbn [fmap list_fmap concat]. fold v.
    rewrite <- app_assoc. do 3 f_equal.
    apply list_fmap_ext. intros k j Hj. rewrite Hv; [done|].
    by eapply list_elem_of_lookup_2.
Qed.

Lemma fold_verdicts_frame (h : host) (l : path) (V : nat -> verdict)
    (gens : list nat) (acc : gmap path file) (p : path) :
  (forall i, i ∈ gens -> p <> slot_path l (Plain i) /\ p <> slot_path l (Gz i)) ->
  foldl (fun a i => verdict_fs h l i (V i) a) acc gens !! p = acc !! p.
Proof.
  revert acc. induction gens as [|i gens IH]; intros acc Hp; [done|].
  cbn [foldl]. rewrite IH.
  - apply verdict_fs_lookup_frame; apply Hp; left.
  - intros j Hj. apply Hp. by right.
Qed.

Lemma verdict_fs_lookup_congr (h : host) (l : path) (i : nat) (v : verdict)
    (m m' : gmap path file) (s : slot) :
  m' !! slot_path l s = m !! slot_path l s ->
  verdict_fs h l i v m' !! slot_path l s = verdict_fs h l i v m !! slot_path l s.
Proof.
  intros E. unfold verdict_fs.
  destruct v as [|f|f [g|] c]; rewrite ?lookup_slot_delete, ?lookup_slot_insert;
    repeat case_decide; done.
Qed.

Lemma fold_verdicts_slot (h : host) (l : path) (V : nat -> verdict)
    (gens : list nat) (acc : gmap path file) (s : slot) :
  NoDup gens -> slot_num s ∈ gens ->
  foldl (fun a i => verdict_fs h l i (V i) a) acc gens !! slot_path l s
  = verdict_fs h l (slot_num s) (V (slot_num s)) acc !! slot_path l s.
Proof.
  revert acc. induction gens as [|i gens IH]; intros acc Hnd Hs;
    [by apply elem_of_nil in Hs|].
  apply NoDup_cons in Hnd as [Hi Hnd]. cbn [foldl].
  destruct (decide (slot_num s = i)) as [<-|Hne].
  - apply fold_verdicts_frame. intros j Hj.
    split; intros ?%slot_path_inj; subst s; cbn in Hi; done.
  - apply elem_of_cons in Hs as [?|Hs]; [done|].
    rewrite IH by done. apply verdict_fs_lookup_congr.
    by apply verdict_fs_lookup_other.
Qed.

Lemma verdicts_fs_frame (h : host) (l : path) (gens : list nat)
    (m : gmap path file) (p : path) :
  (forall i, i ∈ gens -> p <> slot_path l (Plain i) /\ p <> slot_path l (Gz i)) ->
  verdicts_fs h l gens m !! p = m !! p.
Proof. apply fold_verdicts_frame. Qed.

Lemma verdicts_fs_slot (h : host) (l : path) (gens : list nat)
    (m : gmap path file) (s : slot) :
  NoDup gens -> slot_num s ∈ gens ->
  verdicts_fs h l gens m !! slot_path l s
  = verdict_fs h l (slot_num s) (compress_verdict h l (slot_num s) m) m
    !! slot_path l s.
Proof.
  apply (fold_verdicts_slot h l (fun i => compress_verdict h l i m)).
Qed.

Lemma compress_pass_verdicts (h : host) (l : path) (k : Z) (w : world) :
  let gens := seq 1 (Z.to_nat k) in
  compress_rotated_logs h false l k w
  = Done (World (verdicts_fs h l gens (fs w))
                (verdicts_st h l gens (fs w) (st w))
                (ops w ++ verdicts_ops h l gens (fs w))).
Proof. apply compress_loop_verdicts, NoDup_seq. Qed.

Lemma rotated_ne_gz (l : path) (i : nat) :
  rotated_path l i <> gz_path (rotated_path l i).
Proof. intros E. by apply (slot_path_inj l (Plain i) (Gz i)) in E. Qed.

Lemma compress_try_raises (h : host) (l : path) (i : nat) (w : world) (f : file) :
  fs w !! rotated_path l i = Some f ->
  is_raised (compress_try h (rotated_path l i) (gz_path (rotated_path l i)) w)
  = compress_fails h (rotated_path l i).
Proof.
  intros Ep. unfold compress_try, compress_fails, seq_, gzip_to. rewrite Ep.
  destruct (gzip_fault_at h (rotated_path l i)); [|done..].
  unfold with_stat, write_file, log_op, set_fs, count, set_st, unlink.
  cbn [fs st ops].
  rewrite lookup_insert_ne, Ep, lookup_insert_eq by (symmetry; apply rotated_ne_gz).
  by destruct (unlink_fails h (rotated_path l i)).
Qed.

Lemma attempted_true (l : path) (i : nat) (m : gmap path file) :
  attempted l m i = true <->
  exists f, m !! rotated_path l i = Some f /\ m !! gz_path (rotated_path l i) = None.
Proof.
  unfold attempted. rewrite andb_true_iff, negb_true_iff,
    bool_decide_eq_true, bool_decide_eq_false.
  split.
  - intros [[f Hf] Hg]. exists f. split; [done|].
    destruct (m !! gz_path _); [|done]. by destruct Hg.
  - intros (f & Hf & Hg). rewrite Hf, Hg. split; [done|]. by intros [? ?].
Qed.

Lemma compress_verdict_Packed (h : host) (l : path) (i : nat) (m : gmap path file)
    (f : file) :
  compress_verdict h l i m = Packed f <->
  m !! rotated_path l i = Some f /\ m !! gz_path (rotated_path l i) = None
  /\ compress_fails h (rotated_path l i) = false.
Proof.
  unfold compress_verdict, compress_fails. cbn [slot_path].
  destruct (m !! rotated_path l i) as [f'|];
    [|split; [done|by intros [? _]]].
  destruct (m !! gz_path (rotated_path l i));
    [split; [done|by intros (_ & ? & _)]|].
  destruct (gzip_fault_at h (rotated_path l i));
    [|split; [done|by intros (_ & _ & ?)]..].
  destruct (unlink_fails h (rotated_path l i)).
  - split; [done|by intros (_ & _ & ?)].
  - split; [by intros [= ->]|by intros ([= ->] & _)].
Qed.

Lemma compress_verdict_Broken (h : host) (l : path) (i : nat) (m : gmap path file) :
  failing h l m i = true <->
  exists f g c, compress_verdict h l i m = Broken f g c
                /\ m !! rotated_path l i = Some f.
Proof.
  unfold failing. rewrite andb_true_iff, attempted_true.
  unfold compress_verdict, compress_fails. cbn [slot_path]. split.
  - intros [(f & -> & ->) Hc].
    destruct (gzip_fault_at h (rotated_path l i)); [rewrite Hc|..];
      by eexists _, _, _.
  - intros (f & g & c & Hv & Hf). rewrite Hf in Hv |- *.
    destruct (m !! gz_path (rotated_path l i)); [done|].
    split; [by exists f|].
    destruct (gzip_fault_at h (rotated_path l i)); [|done..].
    by destruct (unlink_fails h (rotated_path l i)).
Qed.

Lemma verdict_fs_Broken_original (h : host) (l : path) (i : nat)
    (f : file) (g : option file) (c : bool) (m : gmap path file) :
  verdict_fs h l i (Broken f g c) m !! rotated_path l i = m !! rotated_path l i.
Proof.
  unfold verdict_fs. destruct g; [|done].
  apply lookup_insert_ne. symmetry. apply rotated_ne_gz.
Qed.

Lemma errors_verdict_st (h : host) (v : verdict) (s : stats) :
  errors (verdict_st h v s)
  = errors s + match v with Broken _ _ _ => 1 | _ => 0 end.
Proof. destruct v as [|f|f g []]; cbn; lia. Qed.

Lemma errors_verdicts_st (h : host) (l : path) (gens : list nat)
    (m : gmap path file) (s : stats) :
  errors (verdicts_st h l gens m s) = errors s + count_of (failing h l m) gens.
Proof.
  unfold verdicts_st, count_of. revert s.
  induction gens as [|i gens IH]; intros s; [cbn; lia|].
  cbn [foldl]. rewrite IH, errors_verdict_st, filter_cons.
  destruct (failing h l m i) eqn:Ef.
  - apply compress_verdict_Broken in Ef as (f & g & c & -> & _).
    rewrite decide_True by done. cbn [length]. lia.
  - rewrite decide_False by done.
    destruct (compress_verdict h l i m) as [|f|f g c] eqn:Ev; [lia..|].
    assert (failing h l m i = true) as Hc; [|congruence].
    apply compress_verdict_Broken. exists f, g, c. split; [done|].
    unfold compress_verdict in Ev. cbn [slot_path] in Ev.
    destruct (m !! rotated_path l i); [|done].
    destruct (m !! gz_path (rotated_path l i)); [done|].
    destruct (gzip_fault_at h (rotated_path l i)); [|by simplify_eq..].
    destruct (unlink_fails h (rotated_path l i)); by simplify_eq.
Qed.

Lemma verdicts_ops_unlink (h : host) (l : path) (gens : list nat)
    (m : gmap path file) (a b : list fs_op) (p : path) :
  verdicts_ops h l gens m = a ++ OpUnlink p :: b ->
  exists i f a',
    i ∈ gens /\ p = rotated_path l i /\ compress_verdict h l i m = Packed f
    /\ a = a' ++ [OpWrite (gz_path p) (deflate h (content f))].
Proof.
  unfold verdicts_ops. revert a.
  induction gens as [|i gens IH]; intros a E.
  { cbn in E. by destruct a. }
  cbn [fmap list_fmap concat] in E.
  destruct (compress_verdict h l i m) as [|f|f [g|] c] eqn:Ev; cbn in E.
  - destruct (IH _ E) as (j & f & a' & Hj & ? & ? & ?).
    exists j, f, a'. split_and!; [by right|done..].
  - destruct a as [|x [|y a]]; cbn in E; [done| |].
    + injection E as Ex Ep _. subst x p.
      exists i, f, []. split_and!; [by left|done..].
    + injection E as Ex Ey E. subst x y.
      destruct (IH _ E) as (j & f' & a' & Hj & ? & ? & ->).
      eexists j, f', (_ :: _ :: a'). split_and!; [by right|done..].
  - destruct a as [|x a]; cbn in E; [done|].
    injection E as Ex E. subst x.
    destruct (IH _ E) as (j & f' & a' & Hj & ? & ? & ->).
    eexists j, f', (_ :: a'). split_and!; [by right|done..].
  - destruct (IH _ E) as (j & f' & a' & Hj & ? & ? & ?).
    exists j, f', a'. split_and!; [by right|done..].
Qed.

(** C5. In the compression pass every [unlink] of an original [<name>.N]
    comes directly after the write of the whole compressed [<name>.N.gz],
    which is on disk when the pass ends; and for every generation whose
    compression fails (the [try] block raises) the original is still there
    with its bytes and time, and each such failure adds one to the error
    counter. *)
Theorem compression_unlinks_after_write_and_keeps_original_on_failure
    (h : host) (l : path) (k : Z) (w : world) :
  exists w' tr,
    compress_rotated_logs h false l k w = Done w' /\
    ops w' = ops w ++ tr /\
    (forall a b p,
        tr = a ++ OpUnlink p :: b ->
        exists i f a',
          (1 <= i <= Z.to_nat k)%nat /\ p = rotated_path l i /\
          fs w !! p = Some f /\
          a = a' ++ [OpWrite (gz_path p) (deflate h (content f))] /\
          fs w' !! gz_path p = Some (full_gz h f)) /\
    (forall i f w0,
        (1 <= i <= Z.to_nat k)%nat ->
        fs w !! rotated_path l i = Some f ->
        fs w !! gz_path (rotated_path l i) = None ->
        fs w0 !! rotated_path l i = Some f ->
        is_raised (compress_try h (rotated_path l i)
                                (gz_path (rotated_path l i)) w0) = true ->
        failing h l (fs w) i = true /\
        fs w' !! rotated_path l i = Some f /\
        OpUnlink (rotated_path l i) ∉ tr) /\
    errors (st w')
    = errors (st w) + count_of (failing h l (fs w)) (seq 1 (Z.to_nat k)).
Proof.
  eexists _, _. split; [apply compress_pass_verdicts|]. cbn [fs st ops].
  split; [done|]. split_and!.
  - intros a b p E.
    destruct (verdicts_ops_unlink _ _ _ _ _ _ _ E) as (i & f & a' & Hi & -> & Hv & ->).
    exists i, f, a'. apply elem_of_seq in Hi.
    pose proof Hv as (Hf & Hg & _)%compress_verdict_Packed.
    split_and!; [lia|lia|done..|].
    rewrite (verdicts_fs_slot h l _ _ (Gz i)) by (apply NoDup_seq || by apply elem_of_seq).
    cbn [slot_num]. rewrite Hv. cbn [verdict_fs].
    rewrite (lookup_slot_delete l (Plain i) (Gz i)), decide_False by done.
    apply lookup_insert_eq.
  - intros i f w0 Hi Hf Hg Hf0 Hr.
    rewrite (compress_try_raises _ _ _ _ _ Hf0) in Hr.
    assert (failing h l (fs w) i = true) as Hfail.
    { unfold failing. rewrite Hr, andb_true_r. apply attempted_true. eauto. }
    split; [done|].
    pose proof Hfail as (f' & g & c & Hv & Hf')%compress_verdict_Broken.
    split.
    + rewrite (verdicts_fs_slot h l _ _ (Plain i))
        by (apply NoDup_seq || (apply elem_of_seq; cbn; lia)).
      cbn [slot_num]. rewrite Hv. cbn [slot_path].
      by rewrite verdict_fs_Broken_original.
    + intros (a & b & E)%list_elem_of_split.
      destruct (verdicts_ops_unlink _ _ _ _ _ _ _ E) as (j & f2 & a' & _ & Hj & Hv2 & _).
      apply (slot_path_inj l (Plain i) (Plain j)) in Hj. injection Hj as <-.
      congruence.
  - apply errors_verdicts_st.
Qed.

(** C10. When the writing of [<name>.N.gz] breaks off after the output was
    opened, the pass leaves the partial [<name>.N.gz] next to the untouched
    [<name>.N]; and every later compression pass, whatever the host and the
    number of generations, skips that generation and leaves both files as
    they are. *)
Theorem partial_gz_is_kept_and_blocks_later_compression
    (h : host) (l : path) (k : Z) (w : world) (i : nat) (f : file)
    (partial : list byte) :
  (1 <= i <= Z.to_nat k)%nat ->
  fs w !! rotated_path l i = Some f ->
  fs w !! gz_path (rotated_path l i) = None ->
  gzip_fault_at h (rotated_path l i) = GzipWriteFails partial ->
  exists w',
    compress_rotated_logs h false l k w = Done w' /\
    fs w' !! rotated_path l i = Some f /\
    fs w' !! gz_path (rotated_path l i) = Some (File partial (write_time h)) /\
    forall (h2 : host) (k2 : Z),
      compress_step h2 false l i w' = Done w' /\
      exists w'',
        compress_rotated_logs h2 false l k2 w' = Done w'' /\
        fs w'' !! rotated_path l i = Some f /\
        fs w'' !! gz_path (rotated_path l i) = Some (File partial (write_time h)).
Proof.
  intros Hi Hf Hg Hfault.
  assert (compress_verdict h l i (fs w)
          = Broken f (Some (File partial (write_time h))) false) as Hv.
  { unfold compress_verdict. cbn [slot_path]. by rewrite Hf, Hg, Hfault. }
  eexists. split; [apply compress_pass_verdicts|]. cbn [fs st ops].
  set (m' := verdicts_fs h l (seq 1 (Z.to_nat k)) (fs w)).
  assert (m' !! rotated_path l i = Some f) as Hf'.
  { unfold m'. rewrite (verdicts_fs_slot h l _ _ (Plain i))
      by (apply NoDup_seq || (apply elem_of_seq; cbn; lia)).
    cbn [slot_num]. rewrite Hv. cbn [slot_path].
    by rewrite verdict_fs_Broken_original. }
  assert (m' !! gz_path (rotated_path l i) = Some (File partial (write_time h)))
    as Hg'.
  { unfold m'. rewrite (verdicts_fs_slot h l _ _ (Gz i))
      by (apply NoDup_seq || (apply elem_of_seq; cbn; lia)).
    cbn [slot_num]. rewrite Hv. cbn [verdict_fs]. apply lookup_insert_eq. }
  split; [done|]. split; [done|]. intros h2 k2.
  assert (forall m2 : gmap path file,
    m2 !! rotated_path l i = Some f ->
    m2 !! gz_path (rotated_path l i) = Some (File partial (write_time h)) ->
    compress_verdict h2 l i m2 = Skip) as Hskip.
  { intros m2 H1 H2. unfold compress_verdict. cbn [slot_path]. by rewrite H1, H2. }
  split.
  - rewrite compress_step_verdict. cbn [fs st ops].
    rewrite Hskip by done. cbn. by rewrite app_nil_r.
  - eexists. split; [apply compress_pass_verdicts|]. cbn [fs st ops].
    destruct (decide (i ∈ seq 1 (Z.to_nat k2))) as [Hin|Hout].
    + rewrite (verdicts_fs_slot h2 l _ _ (Plain i)),
        (verdicts_fs_slot h2 l _ _ (Gz i)) by (apply NoDup_seq || done).
      cbn [slot_num]. by rewrite Hskip.
    + assert (forall s, slot_num s = i ->
        verdicts_fs h2 l (seq 1 (Z.to_nat k2)) m' !! slot_path l s
        = m' !! slot_path l s) as Hfr.
      { intros s Hs. apply verdicts_fs_frame. intros j Hj.
        split; intros E%slot_path_inj; subst s; cbn in Hs; by subst. }
      split; [exact (eq_trans (Hfr (Plain i) eq_refl) Hf')
             |exact (eq_trans (Hfr (Gz i) eq_refl) Hg')].
Qed.

Lemma partial_gz_is_kept_and_blocks_later_compression_witness :
  let h := breaks_at 7 id (rotated_path app_log 1) [] in
  let w := World (scenario_fs (File [] 1) (File ["x"%byte] 2) (File [] 3)) stats0 [] in
  exists w',
    compress_rotated_logs h false app_log 3 w = Done w' /\
    fs w' !! rotated_path app_log 1 = Some (File ["x"%byte] 2) /\
    fs w' !! gz_path (rotated_path app_log 1) = Some (File [] (write_time h)) /\
    forall (h2 : host) (k2 : Z),
      compress_step h2 false app_log 1 w' = Done w' /\
      exists w'',
        compress_rotated_logs h2 false app_log k2 w' = Done w'' /\
        fs w'' !! rotated_path app_log 1 = Some (File ["x"%byte] 2) /\
        fs w'' !! gz_path (rotated_path app_log 1) = Some (File [] (write_time h)).
Proof.
  intros h w.
  apply (partial_gz_is_kept_and_blocks_later_compression
           h app_log 3 w 1 (File ["x"%byte] 2) []).
  - vm_compute. lia.
  - reflexivity.
  - reflexivity.
  - reflexivity.
Defined.

(** ** The retention sweep *)

Lemma glob_elem (m : gmap path file) (dir pat : string) (p : path) (f : file) :
  (p, f) ∈ glob m dir pat <->
  m !! p = Some f /\ parent p = dir /\ fnmatch pat (name p) = true.
Proof.
  unfold glob. rewrite list_elem_of_filter, elem_of_map_to_list.
  cbn [fst]. tauto.
Qed.

Lemma rotated_files_elem (m : gmap path file) (l p : path) :
  p ∈ rotated_files m l <->
  is_Some (m !! p) /\ parent p = parent l
  /\ fnmatch (name l +:+ ".*") (name p) = true.
Proof.
  unfold rotated_files.
  pose proof (merge_sort_Permutation mtime_le
                (glob m (parent l) (name l +:+ ".*"))) as HP.
  split.
  - intros ([q f] & -> & Hq)%list_elem_of_fmap.
    apply (elem_of_Permutation_proper _ _ _ HP), glob_elem in Hq.
    destruct Hq as (Hf & H1 & H2). cbn [fst]. by rewrite Hf.
  - intros ([f Hf] & H1 & H2). apply list_elem_of_fmap. exists (p, f).
    split; [done|].
    apply (elem_of_Permutation_proper _ _ _ HP), glob_elem. done.
Qed.

Lemma rotated_files_NoDup (m : gmap path file) (l : path) :
  NoDup (rotated_files m l).
Proof.
  unfold rotated_files.
  pose proof (merge_sort_Permutation mtime_le
                (glob m (parent l) (name l +:+ ".*"))) as HP.
  apply (NoDup_Permutation_proper _ _ (fmap_Permutation fst _ _ HP)).
  unfold glob.
  apply (sublist_NoDup _ ((map_to_list m).*1));
    first [apply (NoDup_fst_map_to_list m)
          |apply fmap_sublist; apply sublist_filter].
Qed.

Lemma cleanup_step_fate (h : host) (l : path) (age k : Z) (p : path) (w : world) :
  is_Some (fs w !! p) ->
  cleanup_step h false l age k p w
  = Done (World (if removed h l age k (fs w) p then delete p (fs w) else fs w)
                (sweep_stat h l age k (fs w) p (st w))
                (ops w ++ if removed h l age k (fs w) p then [OpUnlink p] else [])).
Proof.
  intros [f Hf]. unfold cleanup_step, removed, selected, sweep_stat, selected.
  case_bool_decide as Hpl; cbn [negb andb].
  { destruct w. cbn. by rewrite app_nil_r. }
  unfold with_stat. rewrite Hf. unfold expired.
  destruct (too_old h age f || too_many k p); cbn [andb negb].
  2:{ destruct w. cbn. by rewrite app_nil_r. }
  unfold try_except, seq_, unlink.
  destruct (unlink_fails h p); cbn [negb].
  { destruct w. cbn. by rewrite app_nil_r. }
  rewrite Hf. by cbn.
Qed.

Lemma filter_ext_in {A} (P Q : A -> Prop) `{!forall x, Decision (P x)}
    `{!forall x, Decision (Q x)} (xs : list A) :
  (forall x, x ∈ xs -> P x <-> Q x) -> filter P xs = filter Q xs.
Proof.
  induction xs as [|x xs IH]; intros HPQ; [done|].
  rewrite !filter_cons. rewrite IH by (intros y Hy; apply HPQ; by right).
  destruct (decide (P x)) as [HP|HP], (decide (Q x)) as [HQ|HQ]; try done;
    exfalso; apply (HPQ x) in HP || apply (HPQ x) in HQ; done || by left.
Qed.

Lemma selected_ext (h : host) (l : path) (age k : Z) (m m' : gmap path file) (p : path) :
  m' !! p = m !! p -> selected h l age k m' p = selected h l age k m p.
Proof. intros E. unfold selected. by rewrite E. Qed.

Lemma cleanup_loop (h : host) (l : path) (age k : Z) (ps : list path) (w : world) :
  NoDup ps -> (forall p, p ∈ ps -> is_Some (fs w !! p)) ->
  for_each ps (cleanup_step h false l age k) w
  = Done (World (sweep_fs h l age k ps (fs w))
                (sweep_st h l age k ps (fs w) (st w))
                (ops w ++ sweep_ops h l age k ps (fs w))).
Proof.
  revert w. induction ps as [|p ps IH]; intros w Hnd Hin.
  { destruct w. cbn. by rewrite app_nil_r. }
  apply NoDup_cons in Hnd as [Hp Hnd].
  cbn [for_each]. unfold seq_ at 1.
  rewrite cleanup_step_fate by (apply Hin; left).
  set (m1 := if removed h l age k (fs w) p then delete p (fs w) else fs w).
  assert (forall q, q ∈ ps -> m1 !! q = fs w !! q) as Hm1.
  { intros q Hq. unfold m1. destruct (removed h l age k (fs w) p); [|done].
    apply lookup_delete_ne. by intros ->. }
  rewrite IH; cbn [fs st ops]; [|done|].
  2:{ intros q Hq. rewrite Hm1 by done. apply Hin. by right. }
  assert (forall q, q ∈ ps ->
    selected h l age k m1 q = selected h l age k (fs w) q) as Hs.
  { intros q Hq. apply selected_ext. by apply Hm1. }
  f_equal. f_equal.
  - unfold sweep_fs. cbn [foldl]. fold m1.
    apply foldl_ext_in. intros q acc Hq. unfold removed. by rewrite Hs.
  - unfold sweep_st. cbn [foldl].
    apply foldl_ext_in. intros q acc Hq. unfold sweep_stat.
    by rewrite Hs, Hm1.
  - unfold sweep_ops. rewrite filter_cons. rewrite <- app_assoc. f_equal.
    assert (filter (fun q => removed h l age k m1 q = true) ps
            = filter (fun q => removed h l age k (fs w) q = true) ps) as ->.
    { apply filter_ext_in. intros q Hq. unfold removed. by rewrite Hs. }
    destruct (removed h l age k (fs w) p).
    + by rewrite decide_True.
    + by rewrite decide_False.
Qed.

Lemma sweep_fs_lookup (h : host) (l : path) (age k : Z) (ps : list path)
    (m : gmap path file) (q : path) :
  sweep_fs h l age k ps m !! q
  = if bool_decide (q ∈ ps) && removed h l age k m q then None else m !! q.
Proof.
  unfold sweep_fs. generalize m at 2 4 as acc.
  induction ps as [|p ps IH]; intros acc; [done|].
  cbn [foldl]. rewrite IH.
  destruct (decide (q = p)) as [->|Hne].
  - rewrite (bool_decide_eq_true_2 (p ∈ p :: ps)) by left. cbn [andb].
    destruct (removed h l age k m p) eqn:Er.
    + rewrite lookup_delete_eq. by destruct (bool_decide _ && _).
    + by rewrite andb_false_r.
  - assert (bool_decide (q ∈ p :: ps) = bool_decide (q ∈ ps)) as ->.
    { apply bool_decide_ext. rewrite elem_of_cons.
      split; [by intros [?|?]|by right]. }
    destruct (removed h l age k m p); [|done].
    by rewrite lookup_delete_ne.
Qed.

Lemma cleanup_real (h : host) (l : path) (age k : Z) (w : world) :
  let ps := rotated_files (fs w) l in
  cleanup_old_rotations h false l age k w
  = Done (World (sweep_fs h l age k ps (fs w))
                (sweep_st h l age k ps (fs w) (st w))
                (ops w ++ sweep_ops h l age k ps (fs w))).
Proof.
  cbn zeta. unfold cleanup_old_rotations. apply cleanup_loop.
  - apply rotated_files_NoDup.
  - by intros p (? & _)%rotated_files_elem.
Qed.

(** ** Names written by the rotation and read by the sweep *)

(** X1. The number that the sweep's pattern [\.(\d+)(\.gz)?$] reads from a
    name built as [<log>.<i>] or [<log>.<i>.gz] is [i], whatever the name of
    the log file is (dots and digits in it included). *)
Theorem rotation_num_reads_back_generation (l : path) (i : nat) :
  rotation_num (name (rotated_path l i)) = Some (Z.of_nat i) /\
  rotation_num (name (gz_path (rotated_path l i))) = Some (Z.of_nat i).
Proof. split; [apply rotation_num_rotated | apply rotation_num_gz]. Qed.

(** X2. The names [<log>.<i>] and [<log>.<j>.gz] of one log file are all
    different from each other and from the log file itself. *)
Theorem generation_names_never_collide (l : path) (i j : nat) :
  bool_decide (rotated_path l i = rotated_path l j) = bool_decide (i = j) /\
  bool_decide (gz_path (rotated_path l i) = gz_path (rotated_path l j))
  = bool_decide (i = j) /\
  bool_decide (rotated_path l i = gz_path (rotated_path l j)) = false /\
  bool_decide (rotated_path l i = l) = false /\
  bool_decide (gz_path (rotated_path l i) = l) = false.
Proof.
  split_and!.
  - apply bool_decide_ext. split; [|by intros ->].
    intros E. apply (slot_path_inj l (Plain i) (Plain j)) in E. by injection E.
  - apply bool_decide_ext. split; [|by intros ->].
    intros E. apply (slot_path_inj l (Gz i) (Gz j)) in E. by injection E.
  - apply bool_decide_eq_false_2. intros E.
    by apply (slot_path_inj l (Plain i) (Gz j)) in E.
  - apply bool_decide_eq_false_2. apply (slot_path_ne_log l (Plain i)).
  - apply bool_decide_eq_false_2. apply (slot_path_ne_log l (Gz i)).
Qed.

(** ** Counters and exceptions *)

Lemma counters_le_refl (s : stats) : counters_le s s.
Proof. unfold counters_le. lia. Qed.

Lemma counters_le_trans (s1 s2 s3 : stats) :
  counters_le s1 s2 -> counters_le s2 s3 -> counters_le s1 s3.
Proof. unfold counters_le. lia. Qed.

Lemma growing_skip : growing skip.
Proof. intros w. apply counters_le_refl. Qed.

Lemma growing_count (g : stats -> stats) :
  (forall s, counters_le s (g s)) -> growing (count g).
Proof. intros Hg w. apply Hg. Qed.

Lemma counters_le_incr_rotated (s : stats) : counters_le s (incr_rotated s).
Proof. unfold counters_le. cbn. lia. Qed.
Lemma counters_le_incr_compressed (s : stats) : counters_le s (incr_compressed s).
Proof. unfold counters_le. cbn. lia. Qed.
Lemma counters_le_incr_deleted (s : stats) : counters_le s (incr_deleted s).
Proof. unfold counters_le. cbn. lia. Qed.
Lemma counters_le_incr_errors (s : stats) : counters_le s (incr_errors s).
Proof. unfold counters_le. cbn. lia. Qed.
Lemma counters_le_add_bytes_freed (n : Z) (s : stats) :
  counters_le s (add_bytes_freed n s).
Proof. unfold counters_le. cbn. lia. Qed.

Lemma growing_seq (a b : action) : growing a -> growing b -> growing (a ;; b).
Proof.
  intros Ha Hb w. unfold seq_. specialize (Ha w).
  destruct (a w) as [w1|w1]; cbn in Ha; [|done].
  eapply counters_le_trans; [exact Ha|apply Hb].
Qed.

Lemma growing_try (a b : action) :
  growing a -> growing b -> growing (try_except a b).
Proof.
  intros Ha Hb w. unfold try_except. specialize (Ha w).
  destruct (a w) as [w1|w1]; cbn in Ha; [done|].
  eapply counters_le_trans; [exact Ha|apply Hb].
Qed.

Lemma growing_for_each {A} (xs : list A) (body : A -> action) :
  (forall x, growing (body x)) -> growing (for_each xs body).
Proof.
  intros Hb. induction xs as [|x xs IH]; cbn [for_each].
  - apply growing_skip.
  - by apply growing_seq.
Qed.

Lemma growing_with_stat (p : path) (k : file -> action) :
  (forall f, growing (k f)) -> growing (with_stat p k).
Proof.
  intros Hk w. unfold with_stat.
  destruct (fs w !! p); [apply Hk|apply counters_le_refl].
Qed.

Lemma growing_rename (h : host) (src dst : path) : growing (rename h src dst).
Proof.
  intros w. unfold rename. repeat case_match; apply counters_le_refl.
Qed.

Lemma growing_copy2 (h : host) (src dst : path) : growing (copy2 h src dst).
Proof.
  intros w. unfold copy2. repeat case_match; apply counters_le_refl.
Qed.

Lemma growing_truncate (h : host) (p : path) : growing (truncate h p).
Proof.
  intros w. unfold truncate. repeat case_match; apply counters_le_refl.
Qed.

Lemma growing_gzip_to (h : host) (src dst : path) : growing (gzip_to h src dst).
Proof.
  intros w. unfold gzip_to. repeat case_match; apply counters_le_refl.
Qed.

Lemma growing_unlink (h : host) (p : path) : growing (unlink h p).
Proof.
  intros w. unfold unlink. repeat case_match; apply counters_le_refl.
Qed.

Lemma growing_shift (h : host) (dry : bool) (l : path) (k : Z) :
  growing (shift_rotations h dry l k).
Proof.
  apply growing_for_each. intros i w. unfold shift_step.
  repeat case_match; first [apply growing_rename | apply counters_le_refl].
Qed.

Lemma growing_compress (h : host) (dry : bool) (l : path) (k : Z) :
  growing (compress_rotated_logs h dry l k).
Proof.
  apply growing_for_each. intros i w. unfold compress_step.
  repeat case_match; try apply counters_le_refl.
  - apply growing_try; [|apply growing_count, counters_le_incr_errors].
    unfold compress_try. apply growing_seq; [apply growing_gzip_to|].
    apply growing_with_stat. intros fo. apply growing_with_stat. intros fc.
    apply growing_seq; [apply growing_count, counters_le_add_bytes_freed|].
    apply growing_seq; [apply growing_unlink|].
    apply growing_count, counters_le_incr_compressed.
  - apply counters_le_incr_compressed.
Qed.

Lemma growing_cleanup (h : host) (dry : bool) (l : path) (age k : Z) :
  growing (cleanup_old_rotations h dry l age k).
Proof.
  intros w. unfold cleanup_old_rotations.
  apply growing_for_each. intros p. unfold cleanup_step.
  case_bool_decide; [apply growing_skip|].
  apply growing_with_stat. intros f.
  repeat case_match; try apply growing_skip.
  - apply growing_try; [|apply growing_count, counters_le_incr_errors].
    apply growing_seq; [apply growing_unlink|].
    apply growing_seq; [apply growing_count, counters_le_incr_deleted|].
    apply growing_count, counters_le_add_bytes_freed.
  - apply growing_count, counters_le_incr_deleted.
Qed.

Lemma growing_process_log_file (h : host) (dry : bool) (l : path) (age k : Z)
    (c : bool) (ms : Q) :
  growing (process_log_file h dry l age k c ms).
Proof.
  intros w. unfold process_log_file. case_match; [apply counters_le_refl|].
  assert (growing ((if c then compress_rotated_logs h dry l k else skip);;
                   cleanup_old_rotations h dry l age k)) as Hrest.
  { apply growing_seq; [|apply growing_cleanup].
    destruct c; [apply growing_compress|apply growing_skip]. }
  apply growing_seq; [apply growing_shift|]. intros w1.
  destruct (negb dry).
  - pose proof (growing_seq _ _ (growing_copy2 h l (rotated_path l 1))
                  (growing_truncate h l) w1) as Hc.
    fold (copy_truncate h l) in Hc.
    destruct (copy_truncate h l w1) as [w2|w2]; cbn in Hc.
    + eapply counters_le_trans; [exact Hc|].
      apply growing_seq; [apply growing_count, counters_le_incr_rotated|done].
    + eapply counters_le_trans; [exact Hc|apply counters_le_incr_errors].
  - apply growing_seq; [apply growing_count, counters_le_incr_rotated|done].
Qed.

Lemma growing_process_log_group (h : host) (dry : bool) (g : log_group) :
  growing (process_log_group h dry g).
Proof.
  intros w. unfold process_log_group.
  destruct (dir_kind_of h (directory g));
    [apply counters_le_refl|apply counters_le_incr_errors|].
  destruct (find_log_files h w (directory g) (pattern g)) as [fl|];
    [|apply counters_le_incr_errors].
  apply growing_for_each. intros l.
  apply growing_try; [apply growing_process_log_file|].
  apply growing_count, counters_le_incr_errors.
Qed.

(** X3. Through a whole run, dry or real and whatever fails, the counters
    [rotated], [compressed], [deleted] and [errors] never go down. *)
Theorem run_counters_never_decrease
    (h : host) (dry : bool) (groups : list (string * log_group)) (w : world) :
  counters_le (st w) (st (snd (rotate_logs h dry groups w))).
Proof.
  unfold rotate_logs. destruct groups as [|g groups]; [apply counters_le_refl|].
  cbn [snd]. apply (growing_for_each (g :: groups)).
  intros x. apply growing_process_log_group.
Qed.




(** X5. A configuration without groups gives exit code 1 and touches
    nothing; and when the directory of every group is missing, the groups
    are skipped without an error: the world is unchanged and the exit code
    is 0 if no error was counted before. *)
Theorem missing_directories_are_not_errors
    (h : host) (dry : bool) (groups : list (string * log_group)) (w : world) :
  rotate_logs h dry [] w = (1, w) /\
  (groups <> [] ->
   (forall g, g ∈ groups -> dir_kind_of h (directory (snd g)) = DirMissing) ->
   errors (st w) = 0 ->
   rotate_logs h dry groups w = (0, w)).
Proof.
  split; [done|]. intros Hne Hmiss He.
  assert (for_each groups (fun g => process_log_group h dry (snd g)) w = Done w)
    as Hrun.
  { clear Hne. induction groups as [|g groups IH]; [done|].
    cbn [for_each]. unfold seq_, process_log_group at 1.
    rewrite (Hmiss g) by left. apply IH. intros g' Hg'. apply Hmiss. by right. }
  unfold rotate_logs. destruct groups as [|g groups]; [done|].
  rewrite Hrun. cbn [world_of]. by rewrite bool_decide_eq_true_2.
Qed.

Lemma missing_directories_are_not_errors_witness :
  rotate_logs no_directories false [] (World ∅ stats0 []) = (1, World ∅ stats0 [])
  /\ rotate_logs no_directories false [("app", example_group)] (World ∅ stats0 [])
     = (0, World ∅ stats0 []).
Proof.
  destruct (missing_directories_are_not_errors no_directories false
              [("app", example_group)] (World ∅ stats0 [])) as [H1 H2].
  split; [exact H1|]. apply H2.
  - discriminate.
  - intros g Hg. reflexivity.
  - reflexivity.
Defined.

Lemma rotated_files_examined (m : gmap path file) (l q : path) :
  bool_decide (q ∈ rotated_files m l)
  = bool_decide (is_Some (m !! q)) && examined l q.
Proof.
  unfold examined. apply eq_true_iff_eq.
  rewrite !andb_true_iff, !bool_decide_eq_true, rotated_files_elem. tauto.
Qed.

Lemma removed_present (h : host) (l : path) (age k : Z) (m : gmap path file)
    (q : path) :
  removed h l age k m q = true -> is_Some (m !! q).
Proof.
  unfold removed, selected. destruct (m !! q); [by eauto|].
  by rewrite andb_false_r.
Qed.










Lemma sweep_folds_nothing_selected (h : host) (l : path) (age k : Z)
    (ps : list path) (m acc : gmap path file) (s : stats) :
  (forall q, q ∈ ps -> selected h l age k m q = false) ->
  foldl (fun a p => if removed h l age k m p then delete p a else a) acc ps = acc
  /\ foldl (fun a p => sweep_stat h l age k m p a) s ps = s
  /\ filter (fun p => removed h l age k m p = true) ps = [].
Proof.
  intros Hs. induction ps as [|p ps IH]; [done|].
  assert (selected h l age k m p = false) as Hp by (apply Hs; left).
  destruct IH as (IH1 & IH2 & IH3); [intros q Hq; apply Hs; by right|].
  cbn [foldl]. assert (removed h l age k m p = false) as Hr
    by (unfold removed; by rewrite Hp).
  assert (forall a, sweep_stat h l age k m p a = a) as Hst
    by (intros a; unfold sweep_stat; by rewrite Hp).
  rewrite Hr, Hst.
  split; [done|]. split; [done|].
  rewrite filter_cons, decide_False; [done|]. by rewrite Hr.
Qed.

Lemma sweep_fs_nothing_selected (h : host) (l : path) (age k : Z)
    (ps : list path) (m : gmap path file) :
  (forall q, q ∈ ps -> selected h l age k m q = false) ->
  sweep_fs h l age k ps m = m /\
  (forall s, sweep_st h l age k ps m s = s) /\
  sweep_ops h l age k ps m = [].
Proof.
  intros Hs. unfold sweep_fs, sweep_st, sweep_ops. split_and!.
  - by apply (sweep_folds_nothing_selected h l age k ps m m stats0).
  - intros s. by apply (sweep_folds_nothing_selected h l age k ps m m s).
  - by destruct (sweep_folds_nothing_selected h l age k ps m m stats0 Hs)
      as (_ & _ & ->).
Qed.

(** X9. Without [unlink] failures a second sweep right after the first
    (same clock, same policy) finds nothing to do: it returns the world of
    the first sweep as it is, with no deletion, no other call and no counter
    changed. *)
Theorem sweep_twice_changes_nothing_more
    (h : host) (l : path) (age k : Z) (w : world) :
  (forall p, unlink_fails h p = false) ->
  exists w1,
    cleanup_old_rotations h false l age k w = Done w1 /\
    cleanup_old_rotations h false l age k w1 = Done w1.
Proof.
  intros Hu. eexists. split; [apply cleanup_real|].
  rewrite cleanup_real. cbn [fs st ops].
  set (m1 := sweep_fs h l age k (rotated_files (fs w) l) (fs w)).
  assert (forall q, q ∈ rotated_files m1 l -> selected h l age k m1 q = false)
    as Hnone.
  { intros q (Hq & Hp & Hm)%rotated_files_elem.
    assert (m1 !! q = if examined l q && removed h l age k (fs w) q
                      then None else fs w !! q) as Hl.
    { unfold m1. rewrite sweep_fs_lookup, rotated_files_examined.
      destruct (removed h l age k (fs w) q) eqn:Er.
      - apply removed_present in Er.
        by rewrite (bool_decide_eq_true_2 (is_Some (fs w !! q)) Er).
      - by rewrite !andb_false_r. }
    assert (examined l q = true) as He.
    { unfold examined. by rewrite bool_decide_eq_true_2, Hm. }
    rewrite He in Hl. cbn [andb] in Hl.
    destruct (removed h l age k (fs w) q) eqn:Er.
    { rewrite Hl in Hq. by destruct Hq. }
    rewrite (selected_ext h l age k (fs w) m1 q Hl).
    unfold removed in Er. rewrite Hu, andb_true_r in Er. exact Er. }
  destruct (sweep_fs_nothing_selected h l age k _ m1 Hnone) as (H1 & H2 & H3).
  rewrite H1, H2, H3, app_nil_r. done.
Qed.

Lemma sweep_twice_changes_nothing_more_witness :
  let h := quiet (100 * day) 0 id in
  let w := World stale_fs stats0 [] in
  exists w1,
    cleanup_old_rotations h false app_log 30 3 w = Done w1 /\
    cleanup_old_rotations h false app_log 30 3 w1 = Done w1.
Proof.
  intros h w.
  apply (sweep_twice_changes_nothing_more h app_log 30 3 w).
  intros p. reflexivity.
Defined.

(** ** Dry runs against real runs, pass by pass *)

Lemma cleanup_dry_loop (h : host) (l : path) (age k : Z) (m : gmap path file)
    (ps : list path) (s : stats) (o : list fs_op) :
  (forall p, p ∈ ps -> is_Some (m !! p)) ->
  for_each ps (cleanup_step h true l age k) (World m s o)
  = Done (World m (dry_sweep_st h l age k ps m s) o).
Proof.
  revert s. induction ps as [|p ps IH]; intros s Hin; [done|].
  cbn [for_each]. unfold seq_ at 1, cleanup_step at 1.
  destruct (Hin p) as [f Hf]; [left|].
  unfold dry_sweep_st. cbn [foldl]. unfold selected at 2. rewrite Hf.
  case_bool_decide; cbn [negb andb].
  - apply IH. intros q Hq. apply Hin. by right.
  - unfold with_stat. cbn [fs]. rewrite Hf. fold (expired h age k p f).
    destruct (expired h age k p f); cbn;
      apply IH; intros q Hq; apply Hin; by right.
Qed.

Lemma cleanup_dry (h : host) (l : path) (age k : Z) (w : world) :
  cleanup_old_rotations h true l age k w
  = Done (World (fs w)
                (dry_sweep_st h l age k (rotated_files (fs w) l) (fs w) (st w))
                (ops w)).
Proof.
  unfold cleanup_old_rotations. destruct w as [m s o]. cbn [fs st ops].
  apply cleanup_dry_loop. by intros p (? & _)%rotated_files_elem.
Qed.

Lemma sweep_folds_agree (h : host) (l : path) (age k : Z)
    (ps : list path) (m : gmap path file) (s1 s2 : stats) :
  (forall p, unlink_fails h p = false) ->
  rotated s1 = rotated s2 -> compressed s1 = compressed s2 ->
  deleted s1 = deleted s2 -> errors s1 = errors s2 ->
  bytes_freed s2 <= bytes_freed s1 ->
  rotated (sweep_st h l age k ps m s1) = rotated (dry_sweep_st h l age k ps m s2)
  /\ compressed (sweep_st h l age k ps m s1)
     = compressed (dry_sweep_st h l age k ps m s2)
  /\ deleted (sweep_st h l age k ps m s1) = deleted (dry_sweep_st h l age k ps m s2)
  /\ errors (sweep_st h l age k ps m s1) = errors (dry_sweep_st h l age k ps m s2)
  /\ bytes_freed (dry_sweep_st h l age k ps m s2) = bytes_freed s2
  /\ bytes_freed (dry_sweep_st h l age k ps m s2)
     <= bytes_freed (sweep_st h l age k ps m s1).
Proof.
  intros Hu. unfold sweep_st, dry_sweep_st. revert s1 s2.
  induction ps as [|p ps IH]; intros s1 s2 H1 H2 H3 H4 H5; cbn [foldl].
  { split_and!; done. }
  unfold sweep_stat at 2 4 6 8 10. rewrite Hu.
  destruct (selected h l age k m p); [|by apply IH].
  assert (0 <= from_option st_size 0 (m !! p)) as Hsz.
  { destruct (m !! p); cbn; [unfold st_size|]; lia. }
  destruct (IH (add_bytes_freed (from_option st_size 0 (m !! p))
                                (incr_deleted s1)) (incr_deleted s2))
    as (E1 & E2 & E3 & E4 & E5 & E6); cbn; try lia.
  cbn in E5. split_and!; done.
Qed.

(** X10. On the same files and without [unlink] failures, a dry run and a
    real run of the sweep add the same number to [deleted] and agree on
    [rotated], [compressed] and [errors]; but the dry run never adds the
    sizes of the files it would delete to [bytes_freed], which the real run
    does. *)
Theorem sweep_dry_run_counts_like_real_run_except_bytes
    (h : host) (l : path) (age k : Z) (w : world) :
  (forall p, unlink_fails h p = false) ->
  exists wd wr,
    cleanup_old_rotations h true l age k w = Done wd /\
    cleanup_old_rotations h false l age k w = Done wr /\
    deleted (st wd) = deleted (st wr) /\
    rotated (st wd) = rotated (st wr) /\
    compressed (st wd) = compressed (st wr) /\
    errors (st wd) = errors (st wr) /\
    bytes_freed (st wd) = bytes_freed (st w) /\
    bytes_freed (st wd) <= bytes_freed (st wr).
Proof.
  intros Hu. eexists _, _.
  split; [apply cleanup_dry|]. split; [apply cleanup_real|]. cbn [st].
  destruct (sweep_folds_agree h l age k (rotated_files (fs w) l) (fs w)
              (st w) (st w) Hu) as (? & ? & ? & ? & ? & ?);
    [done|done|done|done|lia|].
  split_and!; done.
Qed.

Lemma sweep_dry_run_counts_like_real_run_except_bytes_witness :
  let h := quiet (100 * day) 0 id in
  let w := World stale_fs stats0 [] in
  exists wd wr,
    cleanup_old_rotations h true app_log 30 3 w = Done wd /\
    cleanup_old_rotations h false app_log 30 3 w = Done wr /\
    deleted (st wd) = deleted (st wr) /\
    rotated (st wd) = rotated (st wr) /\
    compressed (st wd) = compressed (st wr) /\
    errors (st wd) = errors (st wr) /\
    bytes_freed (st wd) = bytes_freed (st w) /\
    bytes_freed (st wd) <= bytes_freed (st wr).
Proof.
  intros h w.
  apply (sweep_dry_run_counts_like_real_run_except_bytes h app_log 30 3 w).
  intros p. reflexivity.
Defined.

Lemma compress_dry_loop (h : host) (l : path) (m : gmap path file)
    (gens : list nat) (s : stats) (o : list fs_op) :
  for_each gens (compress_step h true l) (World m s o)
  = Done (World m (dry_compress_st l gens m s) o).
Proof.
  revert s. induction gens as [|i gens IH]; intros s; [done|].
  cbn [for_each]. unfold seq_ at 1, compress_step at 1, exists_.
  unfold dry_compress_st. cbn [foldl fs]. fold (attempted l m i).
  destruct (attempted l m i); cbn; apply IH.
Qed.

Lemma compress_dry (h : host) (l : path) (k : Z) (w : world) :
  compress_rotated_logs h true l k w
  = Done (World (fs w) (dry_compress_st l (seq 1 (Z.to_nat k)) (fs w) (st w))
                (ops w)).
Proof. destruct w. apply compress_dry_loop. Qed.

Lemma attempted_verdict (h : host) (l : path) (i : nat) (m : gmap path file) :
  (forall p, gzip_fault_at h p = GzipOk) ->
  (forall p, unlink_fails h p = false) ->
  compress_verdict h l i m
  = if attempted l m i
    then from_option Packed Skip (m !! rotated_path l i)
    else Skip.
Proof.
  intros Hg Hu. unfold compress_verdict, attempted. cbn [slot_path].
  rewrite Hg, Hu.
  destruct (m !! rotated_path l i) as [f|] eqn:Ef.
  - rewrite (bool_decide_eq_true_2 (is_Some (Some f))) by done.
    destruct (m !! gz_path (rotated_path l i)) as [g|] eqn:Eg.
    + by rewrite (bool_decide_eq_true_2 (is_Some (Some g))).
    + rewrite bool_decide_eq_false_2; [done|]. by intros [? ?].
  - rewrite bool_decide_eq_false_2; [done|]. by intros [? ?].
Qed.

Lemma compress_folds_agree (h : host) (l : path) (gens : list nat)
    (m : gmap path file) (s1 s2 : stats) :
  (forall p, gzip_fault_at h p = GzipOk) ->
  (forall p, unlink_fails h p = false) ->
  rotated s1 = rotated s2 -> compressed s1 = compressed s2 ->
  deleted s1 = deleted s2 -> errors s1 = errors s2 ->
  rotated (verdicts_st h l gens m s1) = rotated (dry_compress_st l gens m s2)
  /\ compressed (verdicts_st h l gens m s1)
     = compressed (dry_compress_st l gens m s2)
  /\ deleted (verdicts_st h l gens m s1) = deleted (dry_compress_st l gens m s2)
  /\ errors (verdicts_st h l gens m s1) = errors (dry_compress_st l gens m s2)
  /\ bytes_freed (dry_compress_st l gens m s2) = bytes_freed s2.
Proof.
  intros Hg Hu. unfold verdicts_st, dry_compress_st. revert s1 s2.
  induction gens as [|i gens IH]; intros s1 s2 H1 H2 H3 H4; cbn [foldl].
  { split_and!; done. }
  rewrite (attempted_verdict h l i m Hg Hu).
  destruct (attempted l m i) eqn:Ea; [|by apply IH].
  apply attempted_true in Ea as (f & Hf & _). rewrite Hf. cbn [from_option].
  destruct (IH (verdict_st h (Packed f) s1) (incr_compressed s2))
    as (E1 & E2 & E3 & E4 & E5); cbn; try lia.
  cbn in E5. split_and!; done.
Qed.

(** X11. On the same files and on a host where nothing fails, a dry run
    and a real run of the compression pass add the same number to
    [compressed] (one per generation [<name>.i] without a [<name>.i.gz],
    [1 <= i <= max_rotations]) and agree on [rotated], [deleted] and
    [errors]; the dry run leaves [bytes_freed] and every file as they are. *)
Theorem compression_dry_run_counts_like_real_run_except_bytes
    (h : host) (l : path) (k : Z) (w : world) :
  (forall p, gzip_fault_at h p = GzipOk) ->
  (forall p, unlink_fails h p = false) ->
  exists wd wr,
    compress_rotated_logs h true l k w = Done wd /\
    compress_rotated_logs h false l k w = Done wr /\
    compressed (st wd) = compressed (st wr) /\
    compressed (st wd)
    = compressed (st w) + count_of (attempted l (fs w)) (seq 1 (Z.to_nat k)) /\
    rotated (st wd) = rotated (st wr) /\
    deleted (st wd) = deleted (st wr) /\
    errors (st wd) = errors (st wr) /\
    bytes_freed (st wd) = bytes_freed (st w) /\
    fs wd = fs w.
Proof.
  intros Hg Hu. eexists _, _.
  split; [apply compress_dry|].
  split; [apply compress_pass_verdicts|]. cbn [st fs].
  destruct (compress_folds_agree h l (seq 1 (Z.to_nat k)) (fs w) (st w) (st w)
              Hg Hu) as (E1 & E2 & E3 & E4 & E5); [done..|].
  split_and!; try done.
  clear. unfold dry_compress_st, count_of. generalize (st w) as s.
  induction (seq 1 (Z.to_nat k)) as [|i gens IH]; intros s; cbn [foldl].
  { cbn. lia. }
  rewrite filter_cons. destruct (attempted l (fs w) i).
  - rewrite IH, decide_True by done. cbn [length compressed incr_compressed]. lia.
  - rewrite IH, decide_False by done. done.
Qed.

Lemma compression_dry_run_counts_like_real_run_except_bytes_witness :
  let h := quiet 0 7 id in
  let w := World (scenario_fs (File [] 1) (File ["x"%byte] 2) (File [] 3)) stats0 [] in
  exists wd wr,
    compress_rotated_logs h true app_log 3 w = Done wd /\
    compress_rotated_logs h false app_log 3 w = Done wr /\
    compressed (st wd) = compressed (st wr) /\
    compressed (st wd)
    = compressed (st w)
      + count_of (attempted app_log (fs w)) (seq 1 (Z.to_nat 3)) /\
    rotated (st wd) = rotated (st wr) /\
    deleted (st wd) = deleted (st wr) /\
    errors (st wd) = errors (st wr) /\
    bytes_freed (st wd) = bytes_freed (st w) /\
    fs wd = fs w.
Proof.
  intros h w.
  apply (compression_dry_run_counts_like_real_run_except_bytes h app_log 3 w).
  - intros p. reflexivity.
  - intros p. reflexivity.
Defined.

(** ** More on the compression pass *)


(** X13. When the compression of [<name>.i] succeeds, [<name>.i] is gone,
    [<name>.i.gz] holds the compressed bytes, [compressed] grows by one and
    [bytes_freed] changes by the signed difference of the two sizes: it goes
    down when the compressed copy is the larger one. *)
Theorem compression_adds_signed_size_difference
    (h : host) (l : path) (i : nat) (w : world) (f : file) :
  gzip_fault_at h (rotated_path l i) = GzipOk ->
  unlink_fails h (rotated_path l i) = false ->
  fs w !! rotated_path l i = Some f ->
  fs w !! gz_path (rotated_path l i) = None ->
  exists w',
    compress_step h false l i w = Done w' /\
    fs w' !! rotated_path l i = None /\
    fs w' !! gz_path (rotated_path l i) = Some (full_gz h f) /\
    compressed (st w') = compressed (st w) + 1 /\
    bytes_freed (st w')
    = bytes_freed (st w) + (st_size f - st_size (full_gz h f)) /\
    (st_size f < st_size (full_gz h f) ->
     bytes_freed (st w') < bytes_freed (st w)).
Proof.
  intros Hg Hu Hf Hgz. eexists. split; [apply compress_step_verdict|].
  assert (compress_verdict h l i (fs w) = Packed f) as ->.
  { unfold compress_verdict. cbn [slot_path]. by rewrite Hf, Hgz, Hg, Hu. }
  cbn [fs st verdict_fs verdict_st]. split_and!.
  - apply lookup_delete_eq.
  - change (gz_path (rotated_path l i)) with (slot_path l (Gz i)).
    rewrite (lookup_slot_delete l (Plain i) (Gz i)), decide_False by done.
    apply lookup_insert_eq.
  - done.
  - done.
  - cbn. unfold saved_bytes. lia.
Qed.

Lemma compression_adds_signed_size_difference_witness :
  let h := quiet 0 7 padding_gz in
  let w := World (scenario_fs (File [] 1) (File ["x"%byte] 2) (File [] 3)) stats0 [] in
  let f := File ["x"%byte] 2 in
  exists w',
    compress_step h false app_log 1 w = Done w' /\
    fs w' !! rotated_path app_log 1 = None /\
    fs w' !! gz_path (rotated_path app_log 1) = Some (full_gz h f) /\
    compressed (st w') = compressed (st w) + 1 /\
    bytes_freed (st w')
    = bytes_freed (st w) + (st_size f - st_size (full_gz h f)) /\
    (st_size f < st_size (full_gz h f) ->
     bytes_freed (st w') < bytes_freed (st w)).
Proof.
  intros h w f.
  apply (compression_adds_signed_size_difference h app_log 1 w f).
  - reflexivity.
  - reflexivity.
  - reflexivity.
  - reflexivity.
Defined.

(** ** Which files are rotated *)

Lemma Qle_div_mib (a b : Q) :
  (a <= b / inject_Z (1024 * 1024) <-> a * inject_Z (1024 * 1024) <= b)%Q.
Proof.
  assert (0 < inject_Z (1024 * 1024))%Q as Hpos by reflexivity.
  rewrite <- (Qmult_le_r a (b / inject_Z (1024 * 1024)) _ Hpos).
  assert (b / inject_Z (1024 * 1024) * inject_Z (1024 * 1024) == b)%Q as ->
    by (field; discriminate).
  reflexivity.
Qed.

Lemma should_rotate_true_iff (w : world) (l : path) (ms : Q) :
  should_rotate w l ms = true <->
  exists f, fs w !! l = Some f /\
            (ms <= 0 \/ ms * inject_Z (1024 * 1024) <= inject_Z (st_size f))%Q.
Proof.
  unfold should_rotate.
  destruct (fs w !! l) as [f|]; [|by split; [|intros (? & ? & _)]].
  destruct (Qle_bool ms 0) eqn:E0; cbn [negb].
  - apply Qle_bool_iff in E0. split; [|done]. intros _. exists f. by split; [|left].
  - destruct (Qle_bool ms (inject_Z (st_size f) / inject_Z (1024 * 1024)))
      eqn:E1; cbn [negb].
    + apply Qle_bool_iff, Qle_div_mib in E1.
      split; [|done]. intros _. exists f. by split; [|right].
    + split; [done|]. intros (f' & [= <-] & [H|H]).
      * apply Qle_bool_iff in H. congruence.
      * apply Qle_div_mib, Qle_bool_iff in H. congruence.
Qed.

(** X14. A log file is rotated exactly when it exists and either
    [min_size_mb] is not positive or its size in bytes is at least
    [min_size_mb] times 1024 * 1024 (so an empty file is rotated when no
    minimum is set); a file that does not qualify is left alone by
    [_process_log_file]: no file, counter or call changes, dry run or not. *)
Theorem log_file_is_rotated_iff_present_and_large_enough
    (h : host) (dry : bool) (l : path) (age k : Z) (c : bool) (ms : Q)
    (w : world) :
  (should_rotate w l ms = true <->
   exists f, fs w !! l = Some f /\
     (ms <= 0 \/ ms * inject_Z (1024 * 1024) <= inject_Z (st_size f))%Q) /\
  (should_rotate w l ms = false ->
   process_log_file h dry l age k c ms w = Done w).
Proof.
  split; [apply should_rotate_true_iff|].
  intros Hs. unfold process_log_file. by rewrite Hs.
Qed.

(** ** The generation shift *)

Lemma shifted_from_refl (l : path) (w : world) : shifted_from l w w.
Proof.
  split; [done|]. split; [done|]. exists []. by rewrite app_nil_r.
Qed.

Lemma shifted_from_trans (l : path) (w1 w2 w3 : world) :
  shifted_from l w1 w2 -> shifted_from l w2 w3 -> shifted_from l w1 w3.
Proof.
  intros (S1 & F1 & t1 & O1 & R1) (S2 & F2 & t2 & O2 & R2).
  split; [congruence|]. split.
  - intros q Hq. by rewrite F2, F1.
  - exists (t1 ++ t2). rewrite O2, O1, app_assoc. split; [done|].
    by apply Forall_app.
Qed.

Lemma rename_generation (h : host) (l : path) (s s' : slot) (w : world) :
  is_Some (fs w !! slot_path l s) ->
  shifted_from l w (world_of (rename h (slot_path l s) (slot_path l s') w)) /\
  (rename_fails h (slot_path l s) = false ->
   is_raised (rename h (slot_path l s) (slot_path l s') w) = false).
Proof.
  intros [f Hf]. unfold rename. rewrite Hf.
  destruct (rename_fails h (slot_path l s)).
  { split; [apply shifted_from_refl|done]. }
  split; [|done]. cbn [world_of]. split; [done|]. split.
  - intros q Hq. cbn. rewrite lookup_insert_ne by (symmetry; apply Hq).
    apply lookup_delete_ne. symmetry. apply Hq.
  - exists [OpRename (slot_path l s) (slot_path l s')]. split; [done|].
    apply Forall_singleton. cbn. eauto.
Qed.

Lemma shift_step_shifted (h : host) (dry : bool) (l : path) (i : nat) (w : world) :
  shifted_from l w (world_of (shift_step h dry l i w)) /\
  ((forall p, rename_fails h p = false) ->
   is_raised (shift_step h dry l i w) = false).
Proof.
  unfold shift_step.
  change (rotated_path l (i + 1)) with (slot_path l (Plain (i + 1))).
  change (rotated_path l i) with (slot_path l (Plain i)).
  change (gz_path (slot_path l (Plain i))) with (slot_path l (Gz i)).
  change (gz_path (slot_path l (Plain (i + 1)))) with (slot_path l (Gz (i + 1))).
  unfold exists_.
  case_bool_decide as Hgz.
  { destruct dry; cbn [negb]; [split; [apply shifted_from_refl|done]|].
    destruct (rename_generation h l (Gz i) (Gz (i + 1)) w Hgz) as [H1 H2].
    split; [done|]. intros Hr. apply H2, Hr. }
  case_bool_decide as Hpl; [|split; [apply shifted_from_refl|done]].
  destruct dry; cbn [negb]; [split; [apply shifted_from_refl|done]|].
  destruct (rename_generation h l (Plain i) (Plain (i + 1)) w Hpl) as [H1 H2].
  split; [done|]. intros Hr. apply H2, Hr.
Qed.

Lemma shift_loop_shifted (h : host) (dry : bool) (l : path) (gens : list nat)
    (w : world) :
  shifted_from l w (world_of (for_each gens (shift_step h dry l) w)) /\
  ((forall p, rename_fails h p = false) ->
   is_raised (for_each gens (shift_step h dry l) w) = false).
Proof.
  revert w. induction gens as [|i gens IH]; intros w.
  { split; [apply shifted_from_refl|done]. }
  cbn [for_each]. unfold seq_.
  destruct (shift_step_shifted h dry l i w) as [H1 H2].
  destruct (shift_step h dry l i w) as [w1|w1]; cbn [world_of] in H1.
  - destruct (IH w1) as [H3 H4]. split; [|done].
    by eapply shifted_from_trans.
  - split; [done|]. intros Hr. by specialize (H2 Hr).
Qed.

(** X15. The generation shift, dry or real and whatever fails, changes no
    counter, leaves the log file itself and every path that is not one of
    its generation names as they are, and makes no call other than renames
    from one generation name to another; with [max_rotations <= 1] it does
    nothing at all, a dry run changes nothing, and when no rename fails it
    returns normally. *)
Theorem shift_only_renames_generations
    (h : host) (dry : bool) (l : path) (k : Z) (w : world) :
  shifted_from l w (world_of (shift_rotations h dry l k w)) /\
  fs (world_of (shift_rotations h dry l k w)) !! l = fs w !! l /\
  (k <= 1 -> shift_rotations h dry l k w = Done w) /\
  (dry = true -> shift_rotations h dry l k w = Done w) /\
  ((forall p, rename_fails h p = false) ->
   is_raised (shift_rotations h dry l k w) = false).
Proof.
  unfold shift_rotations.
  destruct (shift_loop_shifted h dry l (countdown (Z.to_nat (k - 1))) w)
    as [H1 H2].
  split; [done|]. split_and!.
  - destruct H1 as (_ & Hf & _). apply Hf. intros s E.
    by apply (slot_path_ne_log l s).
  - intros Hk. by replace (Z.to_nat (k - 1)) with 0%nat by lia.
  - intros ->. clear H1 H2. generalize (countdown (Z.to_nat (k - 1))) as gens.
    intros gens. revert w. induction gens as [|i gens IH]; intros w; [done|].
    cbn [for_each]. unfold seq_.
    assert (shift_step h true l i w = Done w) as ->; [|apply IH].
    unfold shift_step. cbn [negb]. by repeat case_match.
  - done.
Qed.

(** ** Rotating one file *)













(** X17. When the snapshot of a qualifying log file fails in a real run
    (the copy fails, or the truncation after a successful copy does) and no
    rename failed before, [_process_log_file] returns normally having
    counted exactly one error and no rotation, and skips compression and
    sweep ([compressed] and [deleted] stay); the log file keeps its bytes,
    and if it was the truncation that failed, [<name>.1] holds the copy. *)
Theorem failed_snapshot_counts_one_error_and_loses_nothing
    (h : host) (l : path) (age k : Z) (c : bool) (ms : Q) (w : world) (f : file) :
  (forall p, rename_fails h p = false) ->
  should_rotate w l ms = true ->
  fs w !! l = Some f ->
  copy_fault_at h l <> CopyOk \/ truncate_fails h l = true ->
  exists w',
    process_log_file h false l age k c ms w = Done w' /\
    errors (st w') = errors (st w) + 1 /\
    rotated (st w') = rotated (st w) /\
    compressed (st w') = compressed (st w) /\
    deleted (st w') = deleted (st w) /\
    fs w' !! l = Some f /\
    (copy_fault_at h l = CopyOk -> fs w' !! rotated_path l 1 = Some f).
Proof.
  intros Hr Hs Hf Hfail.
  unfold process_log_file. rewrite Hs. cbn [negb]. unfold seq_ at 1.
  destruct (shift_only_renames_generations h false l k w)
    as ((S1 & _) & F1 & _ & _ & Hdone).
  specialize (Hdone Hr).
  destruct (shift_rotations h false l k w) as [w1|w1]; [|done].
  cbn [world_of] in S1, F1.
  assert (rotated_path l 1 <> l) as Hne by apply (slot_path_ne_log l (Plain 1)).
  unfold copy_truncate, seq_, copy2, truncate. rewrite F1, Hf.
  destruct (copy_fault_at h l) as [|[g|]] eqn:Ec.
  - destruct Hfail as [?|Ht]; [done|]. rewrite Ht.
    eexists. split; [done|]. cbn. rewrite S1.
    split_and!; try done.
    + by rewrite lookup_insert_ne, F1.
    + intros _. apply lookup_insert_eq.
  - eexists. split; [done|]. cbn. rewrite S1.
    split_and!; try done. by rewrite lookup_insert_ne, F1.
  - eexists. split; [done|]. cbn. rewrite S1.
    split_and!; try done. by rewrite F1.
Qed.

Lemma failed_snapshot_counts_one_error_and_loses_nothing_witness :
  let w := World (scenario_fs (File ["x"%byte] 1) (File [] 2) (File [] 3)) stats0 [] in
  let f := File ["x"%byte] 1 in
  exists w',
    process_log_file no_truncate false app_log 30 3 true 0 w = Done w' /\
    errors (st w') = errors (st w) + 1 /\
    rotated (st w') = rotated (st w) /\
    compressed (st w') = compressed (st w) /\
    deleted (st w') = deleted (st w) /\
    fs w' !! app_log = Some f /\
    (copy_fault_at no_truncate app_log = CopyOk ->
     fs w' !! rotated_path app_log 1 = Some f).
Proof.
  intros w f.
  apply (failed_snapshot_counts_one_error_and_loses_nothing
           no_truncate app_log 30 3 true 0 w f).
  - intros p. reflexivity.
  - reflexivity.
  - reflexivity.
  - right. reflexivity.
Defined.

(** ** Finding the files of a group *)





